(** * Hydrogen: upload ingestion and request payload decoding

    A shallow embedding of [src/ts/HUploadManager.ts] and
    [src/ts/HRequest.ts], with the properties of the upload-ingestion
    protocol stated over it.

    Conventions of the embedding.
    - A Node [Buffer] is a list of bytes; [Buffer.concat] is list append.
    - A JS string is a [string]: one character per code unit in 0..255,
      which is how Node hands header values over (latin1).
    - A JS object used as a map (the header mapping) and the file system
      are finite maps with string keys.
    - A JS number holding a byte count is an integer in [Z]; the value
      computed by [parseInt] is rounded the way an IEEE double rounds
      (see [toNumber]), so the comparison with the limit is the code's.
    - A JS exception is a value of [exn]; a block that may throw returns
      a [completion].
    - An ingestion is the call of [handleRequest] followed by a list of
      events, handled in order: what the request stream emits to the
      listeners the call registered, and the completions of the
      operations of the write stream by the event loop. The closure
      variables of the listeners are held in the state.
    - A write stream only queues what it is asked for; the file system
      changes when the event loop carries a queued operation out. *)

From Stdlib Require Import ZArith Ascii String List Lia.
From Stdlib.Strings Require Import Byte.
From stdpp Require Import base option list gmap strings pretty.

Open Scope Z_scope.

(** ** Buffers and strings *)

Module Buffer.

Definition t := list byte.

(** [Buffer.alloc(0, 0)] *)
Definition alloc0 : t := [].

(** [Buffer.concat([a, b])] *)
Definition concat2 (a b : t) : t := a ++ b.

(** [buf.length] *)
Definition length (b : t) : Z := Z.of_nat (List.length b).

Definition hexDigit (n : N) : ascii :=
  if (n <? 10)%N then ascii_of_N (48 + n) else ascii_of_N (87 + n).

(** [buf.toString("hex")]: two lower-case hexadecimal digits per byte. *)
Fixpoint toString_hex (b : t) : string :=
  match b with
  | [] => EmptyString
  | x :: b' =>
      let n := Byte.to_N x in
      String (hexDigit (n / 16)) (String (hexDigit (n mod 16)) (toString_hex b'))
  end.

End Buffer.

(** ** Numbers *)

(** The double nearest to an integer (ties to even). Integers below 2^53
    in absolute value are doubles already. *)
Definition toNumber (n : Z) : Z :=
  let a := Z.abs n in
  if a <? 2 ^ 53 then n
  else
    let e := Z.log2 a - 52 in
    let q := a / 2 ^ e in
    let r := a mod 2 ^ e in
    let half := 2 ^ (e - 1) in
    let q' := if r <? half then q
              else if half <? r then q + 1
              else if Z.even q then q else q + 1 in
    Z.sgn n * (q' * 2 ^ e).

(** ** [parseInt] with no radix argument (ECMAScript, 19.2.5)

    [None] stands for [NaN]. *)

Definition isWhiteSpace (c : ascii) : bool :=
  let n := N_of_ascii c in
  ((9 <=? n) && (n <=? 13) || (n =? 32) || (n =? 160))%N.

Fixpoint trimStart (s : string) : string :=
  match s with
  | String c s' => if isWhiteSpace c then trimStart s' else s
  | EmptyString => EmptyString
  end.

Definition digitValue (c : ascii) : option Z :=
  let n := Z.of_N (N_of_ascii c) in
  if (48 <=? n) && (n <=? 57) then Some (n - 48)
  else if (97 <=? n) && (n <=? 122) then Some (n - 87)
  else if (65 <=? n) && (n <=? 90) then Some (n - 55)
  else None.

(** The longest prefix of radix-[R] digits, as an integer; [acc] is [None]
    as long as no digit was read. *)
Fixpoint parseDigits (R : Z) (s : string) (acc : option Z) : option Z :=
  match s with
  | String c s' =>
      match digitValue c with
      | Some d =>
          if d <? R then parseDigits R s' (Some (R * default 0 acc + d)) else acc
      | None => acc
      end
  | EmptyString => acc
  end.

Definition parseInt (s : string) : option Z :=
  let s1 := trimStart s in
  let '(sign, s2) :=
    match s1 with
    | String "-" r => (-1, r)
    | String "+" r => (1, r)
    | _ => (1, s1)
    end in
  let '(R, s3) :=
    match s2 with
    | String "0" (String "x" r) => (16, r)
    | String "0" (String "X" r) => (16, r)
    | _ => (10, s2)
    end in
  match parseDigits R s3 None with
  | Some mathInt => Some (toNumber (sign * mathInt))
  | None => None
  end.

(** [isNaN(x)] on the result of [parseInt] *)
Definition isNaN (x : option Z) : bool :=
  match x with None => true | Some _ => false end.

(** ** Errors *)

(** Modelled from the spec: [HError] ([src/ts/HError.ts] is not part of the
    sources at hand). Each error carries an HTTP status code and a
    human-readable message; [HError.init().code(c).msg(m).show()] builds
    the error with code [c] and message [m]. *)
Record HError := mkHError { code : Z; msg : string }.

(** What a [throw] carries: an [HError], or an exception of the runtime
    (a [SyntaxError] of [JSON.parse], a [RangeError], ...). *)
Inductive exn :=
  | HErr (e : HError)
  | NativeError (name : string).

Inductive completion (A : Type) :=
  | Normal (a : A)
  | Throw (e : exn).
Arguments Normal {A} a.
Arguments Throw {A} e.

Definition bind {A B} (c : completion A) (k : A → completion B) : completion B :=
  match c with
  | Normal a => k a
  | Throw e => Throw e
  end.

(** [try { body } catch (e) { handler }] *)
Definition try_catch {A} (body : completion A) (handler : exn → completion A)
  : completion A :=
  match body with
  | Normal a => Normal a
  | Throw e => handler e
  end.

(** ** [HRequest] ([src/ts/HRequest.ts]) *)

Section Hydrogen.

(** The values [JSON.parse] returns (never [undefined]) and the type
    definitions of the conformity checker ([typit]) are those of the
    runtime and of the library; the development is parametric in them. *)
Context {JSValue : Type}.

(** The fields [req] and [method] are not read by the code below. *)
Record HRequest := mkHRequest {
  headers : gmap string string;
  url : string;
  payload : option Buffer.t;
  payloadSteamPath : option string;
  payloadObject : option JSValue;
}.

Definition getHeaders (this : HRequest) : gmap string string := headers this.
Definition getPayload (this : HRequest) : option Buffer.t := payload this.
Definition getPayloadStreamPath (this : HRequest) : option string :=
  payloadSteamPath this.
Definition getBody (this : HRequest) : option JSValue := payloadObject this.

Definition setPayloadStreamPath (value : string) (this : HRequest) : HRequest :=
  {| headers := headers this; url := url this; payload := payload this;
     payloadSteamPath := Some value; payloadObject := payloadObject this |}.

Definition setPayload (p : Buffer.t) (this : HRequest) : HRequest :=
  {| headers := headers this; url := url this; payload := Some p;
     payloadSteamPath := payloadSteamPath this;
     payloadObject := payloadObject this |}.

Definition setPayloadObject (o : JSValue) (this : HRequest) : HRequest :=
  {| headers := headers this; url := url this; payload := payload this;
     payloadSteamPath := payloadSteamPath this; payloadObject := Some o |}.

Section Decoding.

(** [buf.toString("utf8")] and [JSON.parse]: either may throw. *)
Variable toString_utf8 : Buffer.t → completion string.
Variable JSON_parse : string → completion JSValue.

(** [new ObjectType(types).checkConformity(value)] *)
Variable ObjectTypeDefinition : Type.
Variable checkConformity : ObjectTypeDefinition → JSValue → bool.

(** The method returns the request as it leaves it. *)
Definition fetchPayload (this : HRequest) : completion HRequest :=
  match payload this with
  | None => Normal this
  | Some p =>
      try_catch
        (bind (toString_utf8 p) (fun payloadString =>
         bind (JSON_parse payloadString) (fun o =>
         Normal (setPayloadObject o this))))
        (fun _ => Normal this)
  end.

Definition payloadUndefined : HError := mkHError 400 "Payload undefined.".
Definition payloadNotValid : HError := mkHError 400 "Payload is not valid type.".

Definition verifyPayloadAgainstTypeDefinition
    (types : ObjectTypeDefinition) (this : HRequest) : completion unit :=
  match payloadObject this with
  | None => Throw (HErr payloadUndefined)
  | Some o =>
      if negb (checkConformity types o) then Throw (HErr payloadNotValid)
      else Normal ()
  end.

End Decoding.

(** ** [HUploadManager] ([src/ts/HUploadManager.ts]) *)

Inductive HUploadManagerLocation := PAYLOAD | STREAM.

Record HUploadManager := mkHUploadManager {
  allowedExtensions : option (list string);
  sizeLimit : option Z;
  location : HUploadManagerLocation;
}.

Definition fileIncorrectType (exts : list string) : HError :=
  mkHError 415
    ("File incorrect format. Set correct 'content-type'. Valid types are "
     +:+ String.concat ", " exts +:+ ".").

(** The limit is printed in decimal, as a template literal prints an
    integer below 10^21. *)
Definition fileTooLarge (limit : Z) : HError :=
  mkHError 413 ("File too large. Limited to " +:+ pretty limit +:+ " bytes.").

Definition throwFileIncorrectType (this : HUploadManager) : completion unit :=
  match allowedExtensions this with
  | Some exts => Throw (HErr (fileIncorrectType exts))
  | None => Normal ()
  end.

(** [array.indexOf(x)]: the first index holding a value strictly equal
    to [x], or -1. *)
Fixpoint indexOf_from (i : Z) (l : list string) (x : string) : Z :=
  match l with
  | [] => -1
  | y :: l' => if String.eqb y x then i else indexOf_from (i + 1) l' x
  end.
Definition indexOf (l : list string) (x : string) : Z := indexOf_from 0 l x.

(** *** The file system and the random source *)

Definition existsSync (fs : gmap string Buffer.t) (p : string) : bool :=
  match fs !! p with Some _ => true | None => false end.

(** A write stream works behind the event loop. Its methods only queue
    the operation they ask for; the event loop carries the queued
    operations out later, one after the other, in the order in which they
    were asked for. Until then the file system is as it was. *)
Inductive FsOp :=
  | OpOpen
  | OpWrite (chunk : Buffer.t)
  | OpClose.

Record WriteStream := mkWriteStream {
  ws_path : string;
  ws_pending : list FsOp;
  ws_ended : bool;
}.

(** [FS.createWriteStream(p)]: the stream asks for its file to be opened
    with flag [w]. *)
Definition createWriteStream (p : string) : WriteStream :=
  {| ws_path := p; ws_pending := [OpOpen]; ws_ended := false |}.

(** [writeStream.write(chunk)] queues the chunk; a stream that was ended
    takes no more chunks. *)
Definition write (ws : WriteStream) (chunk : Buffer.t) : WriteStream :=
  if ws_ended ws then ws
  else {| ws_path := ws_path ws;
          ws_pending := ws_pending ws ++ [OpWrite chunk];
          ws_ended := false |}.

(** [writeStream.end()] *)
Definition end_stream (ws : WriteStream) : WriteStream :=
  if ws_ended ws then ws
  else {| ws_path := ws_path ws;
          ws_pending := ws_pending ws ++ [OpClose];
          ws_ended := true |}.

(** What one operation does to the file system once it is carried out:
    opening with flag [w] creates the file, or empties it when it exists;
    a write appends to it. *)
Definition perform (p : string) (op : FsOp) (fs : gmap string Buffer.t)
  : gmap string Buffer.t :=
  match op with
  | OpOpen => <[p := []]> fs
  | OpWrite chunk => <[p := default [] (fs !! p) ++ chunk]> fs
  | OpClose => fs
  end.

(** The bytes of the writes in a queue. *)
Fixpoint queued (ops : list FsOp) : Buffer.t :=
  match ops with
  | [] => []
  | OpWrite chunk :: ops' => chunk ++ queued ops'
  | _ :: ops' => queued ops'
  end.

(** [random] holds the values the next calls of [Crypto.randomBytes(8)]
    return. The loop takes one per iteration; [None] says that the loop
    is still running when the values at hand are used up. *)
Fixpoint getNewFilePath (fs : gmap string Buffer.t) (random : list Buffer.t)
  : option (string * list Buffer.t) :=
  match random with
  | [] => None
  | bytes :: random' =>
      let name := Buffer.toString_hex bytes in
      if existsSync fs ("/tmp/" +:+ name) then getNewFilePath fs random'
      else Some ("/tmp/" +:+ name, random')
  end.

(** *** The promise, the listeners and the state *)

Inductive PromiseState :=
  | Pending
  | Fulfilled
  | Rejected (reason : exn).

(** The listeners registered on the request, with the variables their
    closures hold: [payload], or [filePath], [writeStream] and [length]. *)
Inductive Listeners :=
  | NoListeners
  | PayloadListeners (payload : Buffer.t)
  | StreamListeners (filePath : string) (writeStream : WriteStream) (length : Z).

Record State := mkState {
  promise : PromiseState;
  request : HRequest;
  files : gmap string Buffer.t;
  random : list Buffer.t;
  listeners : Listeners;
}.

(** [resolve()] and [reject(e)] settle a pending promise and do nothing
    to a settled one. *)
Definition settle (outcome : PromiseState) (st : State) : State :=
  match promise st with
  | Pending =>
      {| promise := outcome; request := request st; files := files st;
         random := random st; listeners := listeners st |}
  | _ => st
  end.
Definition resolve (st : State) : State := settle Fulfilled st.
Definition reject (e : exn) (st : State) : State := settle (Rejected e) st.

Definition set_listeners (l : Listeners) (st : State) : State :=
  {| promise := promise st; request := request st; files := files st;
     random := random st; listeners := l |}.
Definition set_files (fs : gmap string Buffer.t) (st : State) : State :=
  {| promise := promise st; request := request st; files := fs;
     random := random st; listeners := listeners st |}.
Definition set_request (r : HRequest) (st : State) : State :=
  {| promise := promise st; request := r; files := files st;
     random := random st; listeners := listeners st |}.

(** *** [handleRequest] *)

(** The check of the declared type (lines 85-91). *)
Definition checkContentType (this : HUploadManager) (req : HRequest)
  : completion unit :=
  match allowedExtensions this with
  | Some exts =>
      match getHeaders req !! "content-type" with
      | None => throwFileIncorrectType this
      | Some mime =>
          if indexOf exts mime =? -1 then throwFileIncorrectType this
          else Normal ()
      end
  | None => Normal ()
  end.

(** The check of the declared length (lines 93-104); [Some e] is
    [return reject(e)]. *)
Definition checkContentLength (this : HUploadManager) (req : HRequest)
  : option HError :=
  match sizeLimit this with
  | Some limit =>
      match getHeaders req !! "content-length" with
      | Some contentLength =>
          let lengthNum := parseInt contentLength in
          match lengthNum with
          | Some n =>
              if negb (isNaN lengthNum) && (n >? limit)
              then Some (fileTooLarge limit) else None
          | None => None
          end
      | None => None
      end
  | None => None
  end.

(** Lines 106-152: the buffer is allocated, or the file path is drawn and
    the write stream opened, and the two listeners are registered. [None]:
    the loop of [getNewFilePath] has not come to an end. *)
Definition registerListeners (this : HUploadManager) (st0 : State)
  : option State :=
  match location this with
  | PAYLOAD => Some (set_listeners (PayloadListeners Buffer.alloc0) st0)
  | STREAM =>
      match getNewFilePath (files st0) (random st0) with
      | Some (filePath, rnd') =>
          Some (mkState (promise st0) (request st0) (files st0) rnd'
                  (StreamListeners filePath (createWriteStream filePath) 0))
      | None => None
      end
  end.

(** The promise executor, run when [handleRequest] is called. An
    exception thrown in it rejects the promise. The result is the state
    the call leaves behind: the promise, the request, the file system,
    the random source and the listeners now registered. *)
Definition handleRequest (this : HUploadManager) (req : HRequest)
    (fs : gmap string Buffer.t) (rnd : list Buffer.t) : option State :=
  let st0 := mkState Pending req fs rnd NoListeners in
  match checkContentType this req with
  | Throw e => Some (reject e st0)
  | Normal _ =>
      match checkContentLength this req with
      | Some e => Some (reject (HErr e) st0)
      | None => registerListeners this st0
      end
  end.

(** The listener of ["data"]. *)
Definition on_data (this : HUploadManager) (chunk : Buffer.t) (st : State)
  : State :=
  match listeners st with
  | NoListeners => st
  | PayloadListeners payload =>
      let payload := Buffer.concat2 payload chunk in
      let st := set_listeners (PayloadListeners payload) st in
      match sizeLimit this with
      | Some limit =>
          if Buffer.length payload >? limit
          then reject (HErr (fileTooLarge limit)) st else st
      | None => st
      end
  | StreamListeners filePath writeStream length =>
      let length := length + Buffer.length chunk in
      let writeStream := write writeStream chunk in
      let st := set_listeners (StreamListeners filePath writeStream length) st in
      match sizeLimit this with
      | Some limit =>
          if length >? limit
          then reject (HErr (fileTooLarge limit)) st else st
      | None => st
      end
  end.

(** The listener of ["end"]. *)
Definition on_end (st : State) : State :=
  match listeners st with
  | NoListeners => st
  | PayloadListeners payload =>
      resolve (set_request (setPayload payload (request st)) st)
  | StreamListeners filePath writeStream length =>
      let st := set_request (setPayloadStreamPath filePath (request st)) st in
      let writeStream := end_stream writeStream in
      let st := set_listeners (StreamListeners filePath writeStream length) st in
      resolve st
  end.

(** The event loop carries out the operation the write stream has waited
    for longest. *)
Definition on_io (st : State) : State :=
  match listeners st with
  | StreamListeners filePath writeStream length =>
      match ws_pending writeStream with
      | op :: ops =>
          let fs := perform (ws_path writeStream) op (files st) in
          let writeStream :=
            mkWriteStream (ws_path writeStream) ops (ws_ended writeStream) in
          set_files fs (set_listeners (StreamListeners filePath writeStream length) st)
      | [] => st
      end
  | _ => st
  end.

(** What happens during an ingestion, in order: the request stream emits
    ["data"], ["end"] or ["error"], or the event loop completes an
    operation of the write stream ([io]). No listener of ["error"] is
    registered, so that event reaches no code of the ingestion. After
    ["end"] a readable stream emits no further ["data"] or ["end"]; the
    operations of the write stream go on. *)
Inductive Event :=
  | data (chunk : Buffer.t)
  | end_
  | error
  | io.

Fixpoint drain (evs : list Event) (st : State) : State :=
  match evs with
  | [] => st
  | io :: evs' => drain evs' (on_io st)
  | _ :: evs' => drain evs' st
  end.

Fixpoint emit (this : HUploadManager) (evs : list Event) (st : State) : State :=
  match evs with
  | [] => st
  | data chunk :: evs' => emit this evs' (on_data this chunk st)
  | end_ :: evs' => drain evs' (on_end st)
  | error :: evs' => emit this evs' st
  | io :: evs' => emit this evs' (on_io st)
  end.

(** The state once the event loop has carried out everything the write
    stream still waits for. *)
Definition flush (st : State) : State :=
  match listeners st with
  | StreamListeners filePath writeStream length =>
      let fs := foldl (fun fs op => perform (ws_path writeStream) op fs)
                  (files st) (ws_pending writeStream) in
      let writeStream :=
        mkWriteStream (ws_path writeStream) [] (ws_ended writeStream) in
      set_files fs (set_listeners (StreamListeners filePath writeStream length) st)
  | _ => st
  end.

(** One ingestion: the call, then the events of the stream. *)
Definition ingest (this : HUploadManager) (req : HRequest)
    (fs : gmap string Buffer.t) (rnd : list Buffer.t) (evs : list Event)
  : option State :=
  emit this evs <$> handleRequest this req fs rnd.



(** All characters of a string are lower-case hexadecimal digits. *)
Fixpoint allHex (s : string) : bool :=
  match s with
  | EmptyString => true
  | String c s' =>
      let n := N_of_ascii c in
      (((48 <=? n) && (n <=? 57)) || ((97 <=? n) && (n <=? 102)))%N && allHex s'
  end.

Definition isPayloadListeners (l : Listeners) : bool :=
  match l with PayloadListeners _ => true | _ => false end.

Definition isStreamListeners (l : Listeners) : bool :=
  match l with StreamListeners _ _ _ => true | _ => false end.

(** The rejection met in stream mode is that of the size check, issued
    when the count of bytes written is above the limit. *)
Definition rejected_above_limit (this : HUploadManager) (st : State)
    (len : Z) : Prop :=
  ∀ reason, promise st = Rejected reason →
    ∃ limit, sizeLimit this = Some limit
             ∧ reason = HErr (fileTooLarge limit) ∧ limit < len.

(** What stream mode keeps true, with [written] the bytes handed to the
    write stream so far and [fs0] the file system before the call: the
    running count is the size of [written]; as long as the open has not
    been carried out the file system is [fs0] and all of [written] is
    queued; afterwards the file holds a first part of [written] and the
    rest is queued. *)
Definition stream_inv (fs0 : gmap string Buffer.t) (p : string)
    (written : Buffer.t) (ended : bool) (st : State) : Prop :=
  ∃ ws len,
    listeners st = StreamListeners p ws len
    ∧ ws_path ws = p
    ∧ ws_ended ws = ended
    ∧ len = Buffer.length written
    ∧ ((files st = fs0
        ∧ ∃ ops, ws_pending ws = OpOpen :: ops
                 ∧ (OpOpen ∉ ops) ∧ queued ops = written)
       ∨ (∃ content,
            files st = <[p := content]> fs0
            ∧ (OpOpen ∉ ws_pending ws)
            ∧ content ++ queued (ws_pending ws) = written)).

(** The completions the write stream of the listeners still waits for. *)
Definition waiting (l : Listeners) : list Event :=
  match l with
  | StreamListeners _ ws _ => replicate (List.length (ws_pending ws)) io
  | _ => []
  end.

(** The chunks a run of events hands to the listener of ["data"]. *)
Fixpoint delivered (evs : list Event) : list Buffer.t :=
  match evs with
  | [] => []
  | data chunk :: evs' => chunk :: delivered evs'
  | end_ :: _ => []
  | _ :: evs' => delivered evs'
  end.

(** The events hold an ["end"]. *)
Fixpoint ends (evs : list Event) : bool :=
  match evs with
  | [] => false
  | end_ :: _ => true
  | _ :: evs' => ends evs'
  end.

(** *** The constructor of [HRequest] and [getEndpoint] *)

(** [s.split(sep)] for a separator of one character: the pieces between
    the separators, in order; a string without separator is its only
    piece, the empty string included. *)
Fixpoint split (sep : ascii) (s : string) : list string :=
  match s with
  | EmptyString => [EmptyString]
  | String c s' =>
      if Ascii.eqb c sep then EmptyString :: split sep s'
      else
        match split sep s' with
        | piece :: pieces => String c piece :: pieces
        | [] => [String c EmptyString]
        end
  end.

(** A character occurs in a string. *)
Fixpoint contains (c : ascii) (s : string) : bool :=
  match s with
  | EmptyString => false
  | String c' s' => Ascii.eqb c' c || contains c s'
  end.

(** [new HRequest(req)], from the headers and the url of the incoming
    message: [req.url || "/"] replaces an absent and an empty url by
    ["/"]. The three payload fields start out undefined. *)
Definition newHRequest (req_headers : gmap string string)
    (req_url : option string) : HRequest :=
  {| headers := req_headers;
     url := match req_url with
            | Some EmptyString | None => "/"
            | Some u => u
            end;
     payload := None; payloadSteamPath := None; payloadObject := None |}.

Definition getUrl (this : HRequest) : string := url this.

(** [elements[elements.length - 1]]; [None] is [undefined]. *)
Definition getEndpoint (this : HRequest) : option string :=
  let elements := split "/" (getUrl this) in
  let i := Z.of_nat (List.length elements) - 1 in
  if i <? 0 then None else elements !! Z.to_nat i.

(** [new HUploadManager(obj)] and its three getters. *)
Record HUploadManagerConstructorType := mkHUploadManagerConstructorType {
  obj_location : HUploadManagerLocation;
  obj_extensions : option (list string);
  obj_sizeLimit : option Z;
}.

Definition newHUploadManager (obj : HUploadManagerConstructorType)
  : HUploadManager :=
  {| allowedExtensions := obj_extensions obj;
     sizeLimit := obj_sizeLimit obj;
     location := obj_location obj |}.

Definition getAllowedExtensions (this : HUploadManager) : option (list string) :=
  allowedExtensions this.
Definition getSizeLimit (this : HUploadManager) : option Z := sizeLimit this.
Definition getLocation (this : HUploadManager) : HUploadManagerLocation :=
  location this.

(** The write stream of the listeners has been ended. *)
Definition writeStream_ended (l : Listeners) : bool :=
  match l with StreamListeners _ ws _ => ws_ended ws | _ => false end.

End Hydrogen.

Arguments HRequest : clear implicits.
Arguments State : clear implicits.

(** ** Sample inputs *)

Module Samples.

(** Eight bytes, as [Crypto.randomBytes(8)] returns them. *)
Definition bytesA : Buffer.t := [x00; x01; x02; x03; x04; x05; x06; xff].

Definition withHeaders (h : gmap string string) : HRequest unit :=
  mkHRequest h "/upload" None None None.

Definition emptyRequest : HRequest unit := withHeaders ∅.

(** Content type outside of the allow-list, declared length 100. *)
Definition textPlain100 : HRequest unit :=
  withHeaders (<["content-type" := "text/plain"]>
                 (<["content-length" := "100"]> ∅)).

Definition length100 : HRequest unit :=
  withHeaders (<["content-length" := "100"]> ∅).


Definition pngOnly10 : HUploadManager :=
  mkHUploadManager (Some ["image/png"]) (Some 10) PAYLOAD.

Definition buffer10 : HUploadManager := mkHUploadManager None (Some 10) PAYLOAD.
Definition buffer1 : HUploadManager := mkHUploadManager None (Some 1) PAYLOAD.
Definition buffer1024 : HUploadManager :=
  mkHUploadManager None (Some 1024) PAYLOAD.
Definition stream1 : HUploadManager := mkHUploadManager None (Some 1) STREAM.

(** What [handleRequest] leaves behind in buffer mode when both checks
    let the empty request pass. *)
Definition buffer_started : State unit :=
  mkState Pending emptyRequest ∅ [] (PayloadListeners []).

(** Chunks of 512, 512 and 1 bytes. *)
Definition chunks_512_512_1 : list Buffer.t :=
  [repeat x00 512; repeat x01 512; [x02]].

(** A decoder that accepts the text [null] only, and a conformity check
    that is decided by the type definition alone. *)
Definition toString_latin1 (b : Buffer.t) : completion string :=
  Normal (string_of_list_byte b).

Definition parse_null (s : string) : completion unit :=
  if String.eqb s "null" then Normal () else Throw (NativeError "SyntaxError").

Definition conforms (types : bool) (_ : unit) : bool := types.

Definition withPayload (b : Buffer.t) : HRequest unit :=
  mkHRequest ∅ "/upload" (Some b) None None.

Definition uploadRequest : HRequest unit :=
  newHRequest ∅ (Some "/api/v1/upload").

Definition bytesB : Buffer.t := [x10; x20; x30; x40; x50; x60; x70; x80].

Definition stream10 : HUploadManager := mkHUploadManager None (Some 10) STREAM.

(** What [handleRequest] leaves behind in stream mode when both checks
    let the empty request pass and the first draw is [bytesA]. *)
Definition stream_started : State unit :=
  mkState Pending emptyRequest ∅ []
    (StreamListeners "/tmp/00010203040506ff"
       (createWriteStream "/tmp/00010203040506ff") 0).

(** The text [null] in two chunks. *)
Definition null_chunks : list Buffer.t := [[x6e; x75]; [x6c; x6c]].

End Samples.

(** ** Evaluations *)

Example parseInt_decimal : parseInt "1025" = Some 1025.
Proof. reflexivity. Qed.
Example parseInt_hex_prefix : parseInt "  -0x1F rest" = Some (-31).
Proof. reflexivity. Qed.
Example parseInt_letters : parseInt "abc" = None.
Proof. reflexivity. Qed.
Example parseInt_empty : parseInt "" = None.
Proof. reflexivity. Qed.
Example parseInt_suffix : parseInt "12px" = Some 12.
Proof. reflexivity. Qed.
Example parseInt_rounds : parseInt "9007199254740993" = Some 9007199254740992.
Proof. reflexivity. Qed.
Example toString_hex_bytes : Buffer.toString_hex [x00; xff; x1a] = "00ff1a"%string.
Proof. reflexivity. Qed.
Example getNewFilePath_collision :
  getNewFilePath (<["/tmp/00010203040506ff" := []]> ∅)
    [Samples.bytesA; Samples.bytesA; [x10; x20; x30; x40; x50; x60; x70; x80]]
  = Some ("/tmp/1020304050607080"%string, []).
Proof. reflexivity. Qed.

(** No limit, allow-list of [application/json], matching content type, a
    body of seven bytes in two chunks. *)
Example ingest_json_body :
  (λ st, (promise st, payload (request st)))
    <$> ingest (mkHUploadManager (Some ["application/json"]) None PAYLOAD)
          (Samples.withHeaders (<["content-type" := "application/json"]> ∅))
          ∅ [] [data [x7b; x22; x61; x22]; data [x3a; x31; x7d]; end_]
  = Some (Fulfilled, Some [x7b; x22; x61; x22; x3a; x31; x7d]).
Proof. reflexivity. Qed.

Example fileTooLarge_msg :
  fileTooLarge 1024 = mkHError 413 "File too large. Limited to 1024 bytes.".
Proof. reflexivity. Qed.

(** ** Properties *)

Section Properties.

Context {JSValue : Type}.

Implicit Types (this : HUploadManager) (req : HRequest JSValue).
Implicit Types (st : State JSValue) (fs : gmap string Buffer.t).
Implicit Types (rnd : list Buffer.t) (evs : list Event) (chunk : Buffer.t).

(** *** The promise *)

Lemma settle_request o st : request (settle o st) = request st.
Proof. unfold settle. by destruct (promise st). Qed.

Lemma settle_files o st : files (settle o st) = files st.
Proof. unfold settle. by destruct (promise st). Qed.

Lemma settle_random o st : random (settle o st) = random st.
Proof. unfold settle. by destruct (promise st). Qed.

Lemma settle_listeners o st : listeners (settle o st) = listeners st.
Proof. unfold settle. by destruct (promise st). Qed.

Lemma settle_pending o st : promise st = Pending → promise (settle o st) = o.
Proof. unfold settle. by intros ->. Qed.

Lemma settle_rejected o st reason :
  promise (settle o st) = Rejected reason →
  promise st = Pending ∧ o = Rejected reason ∨ promise st = Rejected reason.
Proof.
  unfold settle. destruct (promise st) eqn:Hp; simpl; rewrite ?Hp; auto.
Qed.

Lemma settle_settled o st : promise st ≠ Pending → settle o st = st.
Proof. unfold settle. by destruct (promise st). Qed.

(** *** Membership and [indexOf] *)

Lemma indexOf_from_absent (l : list string) (x : string) (i : Z) :
  0 ≤ i → indexOf_from i l x = -1 ↔ x ∉ l.
Proof.
  revert i. induction l as [|y l IH]; intros i Hi; simpl.
  - split; [intros _; apply not_elem_of_nil | done].
  - destruct (String.eqb_spec y x) as [->|Hne].
    + split; [lia | intros Hx; destruct Hx; left].
    + rewrite IH by lia. rewrite not_elem_of_cons. split; [by split|by intros [_ ?]].
Qed.

Lemma indexOf_absent (l : list string) (x : string) :
  indexOf l x = -1 ↔ x ∉ l.
Proof. by apply indexOf_from_absent. Qed.

(** *** The hexadecimal identifier *)

Lemma hexDigit_allHex (x : byte) (s : string) :
  allHex (String (Buffer.hexDigit (Byte.to_N x / 16))
            (String (Buffer.hexDigit (Byte.to_N x mod 16)) s)) = allHex s.
Proof. destruct x; reflexivity. Qed.

Lemma toString_hex_allHex (b : Buffer.t) : allHex (Buffer.toString_hex b) = true.
Proof.
  induction b as [|x b IH]; [done|].
  cbn [Buffer.toString_hex]. by rewrite hexDigit_allHex.
Qed.

Lemma toString_hex_length (b : Buffer.t) :
  String.length (Buffer.toString_hex b) = (2 * List.length b)%nat.
Proof. induction b as [|x b IH]; simpl; [done | rewrite IH; simpl; lia]. Qed.

(** C8. The path [getNewFilePath] returns is ["/tmp/"] followed by the
    hexadecimal encoding of a drawn identifier (two hexadecimal digits per
    random byte); every identifier drawn before it named an existing file
    and was replaced by a new draw, and no file existed at the returned
    path when it was checked. The loop is still running only when every
    draw at hand named an existing file. *)
Theorem getNewFilePath_fresh fs rnd :
  match getNewFilePath fs rnd with
  | Some (filePath, rnd') =>
      ∃ skipped bytes,
        rnd = skipped ++ bytes :: rnd'
        ∧ filePath = "/tmp/" +:+ Buffer.toString_hex bytes
        ∧ allHex (Buffer.toString_hex bytes) = true
        ∧ String.length (Buffer.toString_hex bytes) = (2 * List.length bytes)%nat
        ∧ existsSync fs filePath = false
        ∧ Forall (λ b, existsSync fs ("/tmp/" +:+ Buffer.toString_hex b) = true)
            skipped
  | None =>
      Forall (λ b, existsSync fs ("/tmp/" +:+ Buffer.toString_hex b) = true) rnd
  end.
Proof.
  induction rnd as [|bytes rnd IH]; simpl; [by constructor|].
  destruct (existsSync fs ("/tmp/" +:+ Buffer.toString_hex bytes)) eqn:Hex.
  - destruct (getNewFilePath fs rnd) as [[filePath rnd']|].
    + destruct IH as (skipped & b & -> & -> & Hh & Hl & Hfresh & Hsk).
      exists (bytes :: skipped), b. repeat split; try done.
      by constructor.
    + by constructor.
  - exists [], bytes. repeat split; try done.
    + apply toString_hex_allHex.
    + apply toString_hex_length.
Qed.

(** *** Events reach only registered listeners *)

Lemma on_data_NoListeners this chunk st :
  listeners st = NoListeners → on_data this chunk st = st.
Proof. unfold on_data. by intros ->. Qed.

Lemma on_end_NoListeners st : listeners st = NoListeners → on_end st = st.
Proof. unfold on_end. by intros ->. Qed.

Lemma on_io_not_stream st :
  isStreamListeners (listeners st) = false → on_io st = st.
Proof. unfold on_io. by destruct (listeners st). Qed.

Lemma drain_not_stream evs st :
  isStreamListeners (listeners st) = false → drain evs st = st.
Proof.
  intros Hk. induction evs as [|[chunk| | |] evs IH]; simpl; try done.
  by rewrite on_io_not_stream.
Qed.

Lemma emit_NoListeners this evs st :
  listeners st = NoListeners → emit this evs st = st.
Proof.
  intros Hl. induction evs as [|[chunk| | |] evs IH]; simpl; try done.
  - by rewrite on_data_NoListeners.
  - rewrite on_end_NoListeners by done. apply drain_not_stream. by rewrite Hl.
  - rewrite on_io_not_stream; [done | by rewrite Hl].
Qed.

(** *** The two checks made before the stream is read *)

Lemma checkContentType_throws this req exts :
  allowedExtensions this = Some exts →
  (∀ mime, headers req !! "content-type" = Some mime → mime ∉ exts) →
  checkContentType this req = Throw (HErr (fileIncorrectType exts)).
Proof.
  intros Hexts Hmime. unfold checkContentType, getHeaders, throwFileIncorrectType.
  rewrite Hexts.
  destruct (headers req !! "content-type") as [mime|] eqn:Hh; [|done].
  destruct (Z.eqb_spec (indexOf exts mime) (-1)) as [_|Hin]; [done|].
  destruct Hin. apply indexOf_absent. by apply Hmime.
Qed.

Lemma checkContentLength_rejects this req limit contentLength n :
  sizeLimit this = Some limit →
  headers req !! "content-length" = Some contentLength →
  parseInt contentLength = Some n →
  limit < n →
  checkContentLength this req = Some (fileTooLarge limit).
Proof.
  intros Hlim Hh Hp Hn. unfold checkContentLength, getHeaders.
  rewrite Hlim, Hh, Hp. simpl.
  by destruct (Z.gtb_spec n limit); [|lia].
Qed.



(** C5. When an allow-list is set and the declared content type is absent
    or not a member of it, the call rejects with status 415 at once: no
    listener is registered, no buffer allocated, no path drawn, no file
    created, and whatever the stream emits afterwards changes nothing. *)
Theorem incorrect_content_type_rejected this req fs rnd exts :
  allowedExtensions this = Some exts →
  (∀ mime, headers req !! "content-type" = Some mime → mime ∉ exts) →
  ∃ st,
    handleRequest this req fs rnd = Some st
    ∧ promise st = Rejected (HErr (fileIncorrectType exts))
    ∧ code (fileIncorrectType exts) = 415
    ∧ listeners st = NoListeners
    ∧ files st = fs ∧ random st = rnd ∧ request st = req
    ∧ ∀ evs, emit this evs st = st.
Proof.
  intros Hexts Hmime. unfold handleRequest.
  rewrite (checkContentType_throws this req exts Hexts Hmime).
  eexists. split; [reflexivity|]. repeat split.
  intros evs. by apply emit_NoListeners.
Qed.

(** C6, amended. When the check of the declared type lets the request
    pass, a size limit is set and the content-length header parses to a
    number above the limit, the call rejects with status 413 at once: no
    listener is registered and no chunk is ever read. *)
Theorem declared_length_too_large_rejected
    this req fs rnd limit contentLength n :
  checkContentType this req = Normal () →
  sizeLimit this = Some limit →
  headers req !! "content-length" = Some contentLength →
  parseInt contentLength = Some n →
  limit < n →
  ∃ st,
    handleRequest this req fs rnd = Some st
    ∧ promise st = Rejected (HErr (fileTooLarge limit))
    ∧ code (fileTooLarge limit) = 413
    ∧ listeners st = NoListeners
    ∧ files st = fs ∧ random st = rnd ∧ request st = req
    ∧ ∀ evs, emit this evs st = st.
Proof.
  intros Hct Hlim Hh Hp Hn. unfold handleRequest. rewrite Hct.
  rewrite (checkContentLength_rejects this req limit contentLength n) by done.
  eexists. split; [reflexivity|]. repeat split.
  intros evs. by apply emit_NoListeners.
Qed.

(** *** A header that is not read *)

Section MapRequest.

Variable f : HRequest JSValue → HRequest JSValue.
Hypothesis f_setPayload : ∀ p r, f (setPayload p r) = setPayload p (f r).
Hypothesis f_setPayloadStreamPath :
  ∀ p r, f (setPayloadStreamPath p r) = setPayloadStreamPath p (f r).







End MapRequest.



(** *** Runs of events *)

Lemma emit_app_data this (chunks : list Buffer.t) evs st :
  emit this ((data <$> chunks) ++ evs) st
  = emit this evs (emit this (data <$> chunks) st).
Proof.
  revert st. induction chunks as [|chunk chunks IH]; intros st; simpl; [done|].
  apply IH.
Qed.

Lemma delivered_data (chunks : list Buffer.t) : delivered (data <$> chunks) = chunks.
Proof. induction chunks as [|chunk chunks IH]; simpl; [done | by f_equal]. Qed.

Lemma ends_data (chunks : list Buffer.t) : ends (data <$> chunks) = false.
Proof. by induction chunks. Qed.

Lemma on_data_request this chunk st : request (on_data this chunk st) = request st.
Proof.
  unfold on_data.
  destruct (listeners st) as [|payload|filePath ended len]; [done| |];
    destruct (sizeLimit this) as [limit|]; try done;
    match goal with |- context [if ?c then _ else _] => destruct c end;
    try done; unfold reject; by rewrite settle_request.
Qed.

Lemma emit_data_request this (chunks : list Buffer.t) st :
  request (emit this (data <$> chunks) st) = request st.
Proof.
  revert st. induction chunks as [|chunk chunks IH]; intros st; simpl; [done|].
  by rewrite IH, on_data_request.
Qed.

(** A settled promise keeps its outcome. *)
Lemma on_data_settled this chunk st :
  promise st ≠ Pending → promise (on_data this chunk st) = promise st.
Proof.
  intros Hs. unfold on_data.
  destruct (listeners st) as [|payload|filePath ended len]; [done| |];
    destruct (sizeLimit this) as [limit|]; try done;
    match goal with |- context [if ?c then _ else _] => destruct c end;
    try done; unfold reject; by rewrite settle_settled.
Qed.

Lemma on_end_settled st : promise st ≠ Pending → promise (on_end st) = promise st.
Proof.
  intros Hs. unfold on_end.
  destruct (listeners st) as [|payload|filePath ended len]; [done| |];
    unfold resolve; by rewrite settle_settled.
Qed.

(** The event loop leaves the promise, the request and the random source
    alone. *)
Lemma on_io_frame st :
  promise (on_io st) = promise st
  ∧ request (on_io st) = request st
  ∧ random (on_io st) = random st
  ∧ isStreamListeners (listeners (on_io st)) = isStreamListeners (listeners st)
  ∧ isPayloadListeners (listeners (on_io st)) = isPayloadListeners (listeners st)
  ∧ writeStream_ended (listeners (on_io st)) = writeStream_ended (listeners st).
Proof.
  unfold on_io. destruct (listeners st) as [|payload|filePath ws len] eqn:Hl;
    try by rewrite Hl.
  destruct (ws_pending ws); [by rewrite Hl | done].
Qed.

Lemma drain_frame evs st :
  promise (drain evs st) = promise st
  ∧ request (drain evs st) = request st
  ∧ random (drain evs st) = random st
  ∧ isStreamListeners (listeners (drain evs st)) = isStreamListeners (listeners st)
  ∧ isPayloadListeners (listeners (drain evs st))
    = isPayloadListeners (listeners st)
  ∧ writeStream_ended (listeners (drain evs st))
    = writeStream_ended (listeners st).
Proof.
  revert st. induction evs as [|[chunk| | |] evs IH]; intros st; simpl; try done.
  destruct (IH (on_io st)) as (-> & -> & -> & -> & -> & ->).
  apply on_io_frame.
Qed.

Lemma emit_settled this evs st :
  promise st ≠ Pending → promise (emit this evs st) = promise st.
Proof.
  revert st. induction evs as [|[chunk| | |] evs IH]; intros st Hs; simpl;
    try done.
  - rewrite IH; rewrite on_data_settled; done.
  - rewrite (proj1 (drain_frame evs (on_end st))). by apply on_end_settled.
  - by apply IH.
  - rewrite IH; rewrite (proj1 (on_io_frame st)); done.
Qed.

Lemma emit_app_settled this evs evs' st :
  promise (emit this evs st) ≠ Pending →
  promise (emit this (evs ++ evs') st) = promise (emit this evs st).
Proof.
  revert st. induction evs as [|[chunk| | |] evs IH]; intros st Hs; simpl in *;
    try done.
  - by apply emit_settled.
  - by apply IH.
  - by rewrite !(proj1 (drain_frame _ (on_end st))).
  - by apply IH.
  - by apply IH.
Qed.

(** *** Buffer mode *)

Lemma on_data_PayloadListeners this chunk st b :
  listeners st = PayloadListeners b →
  listeners (on_data this chunk st) = PayloadListeners (b ++ chunk).
Proof.
  intros Hl. unfold on_data. rewrite Hl.
  destruct (sizeLimit this) as [limit|]; [|done].
  destruct (_ >? _); [|done]. unfold reject. by rewrite settle_listeners.
Qed.

Lemma emit_data_PayloadListeners this (chunks : list Buffer.t) st b :
  listeners st = PayloadListeners b →
  listeners (emit this (data <$> chunks) st) = PayloadListeners (b ++ concat chunks).
Proof.
  revert st b. induction chunks as [|chunk chunks IH]; intros st b Hl; simpl.
  - by rewrite app_nil_r.
  - rewrite (IH _ (b ++ chunk)) by by apply on_data_PayloadListeners.
    by rewrite <- app_assoc.
Qed.

Lemma Buffer_length_app (a b : Buffer.t) :
  Buffer.length (a ++ b) = Buffer.length a + Buffer.length b.
Proof. unfold Buffer.length. rewrite length_app. lia. Qed.

Lemma Buffer_length_nonneg (b : Buffer.t) : 0 ≤ Buffer.length b.
Proof. unfold Buffer.length. lia. Qed.

(** No chunk brings the total above the limit: the promise stays pending. *)
Lemma emit_data_payload_pending this (chunks : list Buffer.t) st b :
  listeners st = PayloadListeners b →
  promise st = Pending →
  (∀ limit, sizeLimit this = Some limit →
            Buffer.length (b ++ concat chunks) ≤ limit) →
  promise (emit this (data <$> chunks) st) = Pending.
Proof.
  revert st b. induction chunks as [|chunk chunks IH]; intros st b Hl Hp Hle;
    simpl; [done|].
  apply (IH _ (b ++ chunk)).
  - by apply on_data_PayloadListeners.
  - unfold on_data. rewrite Hl. unfold Buffer.concat2.
    destruct (sizeLimit this) as [limit|] eqn:Hlim; [|done].
    specialize (Hle limit eq_refl). simpl in Hle.
    rewrite !Buffer_length_app in Hle.
    pose proof (Buffer_length_nonneg (concat chunks)).
    destruct (Z.gtb_spec (Buffer.length (b ++ chunk)) limit) as [Hgt|]; [|done].
    rewrite Buffer_length_app in Hgt. lia.
  - intros limit Hlim. rewrite <- app_assoc. by apply Hle.
Qed.

(** The total is above the limit: the promise is rejected. *)
Lemma emit_data_payload_rejected this limit (chunks : list Buffer.t) st b :
  sizeLimit this = Some limit →
  listeners st = PayloadListeners b →
  (promise st = Pending ∧ Buffer.length b ≤ limit
   ∨ promise st = Rejected (HErr (fileTooLarge limit))) →
  limit < Buffer.length (b ++ concat chunks) →
  promise (emit this (data <$> chunks) st) = Rejected (HErr (fileTooLarge limit)).
Proof.
  intros Hlim. revert st b.
  induction chunks as [|chunk chunks IH]; intros st b Hl Hp Hgt; simpl in *.
  - rewrite app_nil_r in Hgt. destruct Hp as [[_ ?]|?]; [lia | done].
  - apply (IH _ (b ++ chunk)).
    + by apply on_data_PayloadListeners.
    + destruct Hp as [[Hp Hb]|Hp].
      * unfold on_data. rewrite Hl, Hlim. unfold Buffer.concat2.
        destruct (Z.gtb_spec (Buffer.length (b ++ chunk)) limit) as [?|?].
        -- right. unfold reject. by rewrite settle_pending.
        -- left. by split.
      * right. rewrite on_data_settled; [done | by rewrite Hp].
    + by rewrite <- app_assoc.
Qed.

Lemma handleRequest_pending_PAYLOAD this req fs rnd st0 :
  location this = PAYLOAD →
  handleRequest this req fs rnd = Some st0 →
  promise st0 = Pending →
  st0 = mkState Pending req fs rnd (PayloadListeners []).
Proof.
  intros Hloc. unfold handleRequest, registerListeners. rewrite Hloc.
  destruct (checkContentType this req) as [[]|e];
    [destruct (checkContentLength this req) as [e|]|]; intros [= <-]; done.
Qed.

(** C4. In buffer mode, when the request passes the checks of the declared
    type and length and the chunks add up to no more than the limit (or no
    limit is set), the ingestion resolves, and the payload of the request
    is the concatenation of the chunks in the order of their arrival; its
    length is the sum of their lengths. *)
Theorem buffer_ingestion_success this req fs rnd (chunks : list Buffer.t) :
  location this = PAYLOAD →
  checkContentType this req = Normal () →
  checkContentLength this req = None →
  (∀ limit, sizeLimit this = Some limit →
            Buffer.length (concat chunks) ≤ limit) →
  ∃ st,
    ingest this req fs rnd ((data <$> chunks) ++ [end_]) = Some st
    ∧ promise st = Fulfilled
    ∧ payload (request st) = Some (concat chunks)
    ∧ Buffer.length (concat chunks)
      = foldr Z.add 0 (Buffer.length <$> chunks).
Proof.
  intros Hloc Hct Hcl Hle. unfold ingest, handleRequest, registerListeners.
  rewrite Hct, Hcl, Hloc. simpl. eexists. split; [reflexivity|].
  set (st0 := set_listeners _ _).
  rewrite emit_app_data. simpl.
  pose proof (emit_data_PayloadListeners this chunks st0 [] eq_refl) as Hl.
  pose proof (emit_data_payload_pending this chunks st0 [] eq_refl eq_refl Hle)
    as Hp.
  simpl in Hl. unfold on_end. rewrite Hl. unfold resolve.
  split; [by rewrite settle_pending|]. split; [by rewrite settle_request|].
  clear. induction chunks as [|chunk chunks IH]; [done|].
  cbn [concat fmap list_fmap foldr]. by rewrite Buffer_length_app, IH.
Qed.

(** C2, amended. In buffer mode with a limit, once the chunks received add
    up to more than the limit the promise is rejected with status 413, and
    whatever the stream emits afterwards leaves that outcome in place; no
    payload has been attached to the request when the chunks have been
    received. *)
Theorem buffer_overflow_rejected
    this req fs rnd st0 limit (chunks : list Buffer.t) :
  location this = PAYLOAD →
  sizeLimit this = Some limit →
  0 ≤ limit →
  handleRequest this req fs rnd = Some st0 →
  promise st0 = Pending →
  limit < Buffer.length (concat chunks) →
  promise (emit this (data <$> chunks) st0) = Rejected (HErr (fileTooLarge limit))
  ∧ code (fileTooLarge limit) = 413
  ∧ request (emit this (data <$> chunks) st0) = req
  ∧ ∀ evs, promise (emit this ((data <$> chunks) ++ evs) st0)
           = Rejected (HErr (fileTooLarge limit)).
Proof.
  intros Hloc Hlim Hpos Hst0 Hp Hgt.
  rewrite (handleRequest_pending_PAYLOAD this req fs rnd st0 Hloc Hst0 Hp).
  set (st := mkState _ _ _ _ _).
  assert (promise (emit this (data <$> chunks) st)
          = Rejected (HErr (fileTooLarge limit))) as Hrej.
  { apply (emit_data_payload_rejected this limit chunks st []); try done.
    left. by split. }
  split; [done|]. split; [done|]. split; [by rewrite emit_data_request|].
  intros evs. rewrite emit_app_data, emit_settled; [done | by rewrite Hrej].
Qed.

(** *** Stream mode *)

Lemma queued_app (ops ops' : list FsOp) : queued (ops ++ ops') = queued ops ++ queued ops'.
Proof.
  induction ops as [|[|chunk|] ops IH]; simpl; try done.
  by rewrite IH, app_assoc.
Qed.

(** Carrying out queued writes on an open file appends their bytes. *)
Lemma perform_queued fs0 (p : string) (content : Buffer.t) (ops : list FsOp) :
  OpOpen ∉ ops →
  foldl (λ fs op, perform p op fs) (<[p := content]> fs0) ops
  = <[p := content ++ queued ops]> fs0.
Proof.
  revert content. induction ops as [|op ops IH]; intros content Hno; simpl.
  - by rewrite app_nil_r.
  - apply not_elem_of_cons in Hno as [Hop Hno].
    destruct op as [|chunk|]; simpl; [done| |by apply IH].
    rewrite lookup_insert_eq, insert_insert_eq. simpl.
    rewrite IH by done. by rewrite app_assoc.
Qed.

Lemma stream_inv_flush fs0 (p : string) written ended st :
  stream_inv fs0 p written ended st →
  files (flush st) = <[p := written]> fs0
  ∧ (files st = fs0 ∨ ∃ content, files st = <[p := content]> fs0).
Proof.
  intros (ws & len & Hl & Hp & _ & _ & Hcase). unfold flush. rewrite Hl, Hp.
  simpl.
  destruct Hcase as [(Hf & ops & Hops & Hno & Hq)|(content & Hf & Hno & Hq)].
  - rewrite Hf, Hops. simpl. rewrite perform_queued by done.
    simpl. rewrite Hq. auto.
  - rewrite Hf, perform_queued by done. rewrite Hq. eauto.
Qed.

(** [flush] is what the event loop gets to when it completes every
    operation the write stream waits for. *)
Lemma drain_waiting st : drain (waiting (listeners st)) st = flush st.
Proof.
  unfold waiting, flush.
  destruct (listeners st) as [|payload|p ws len] eqn:Hl; [done|done|].
  remember (ws_pending ws) as ops eqn:Hops.
  revert st ws Hl Hops. induction ops as [|op ops IH]; intros st ws Hl Hops.
  - simpl. destruct st as [pr r f rn l], ws as [path pending ended].
    simpl in *. by subst.
  - simpl.
    assert (listeners (on_io st)
            = StreamListeners p (mkWriteStream (ws_path ws) ops (ws_ended ws)) len)
      as Hl' by (unfold on_io; by rewrite Hl, <- Hops).
    rewrite (IH (on_io st) _ Hl' eq_refl). simpl.
    unfold on_io. rewrite Hl, <- Hops. done.
Qed.

Lemma emit_app_io this evs st (n : nat) :
  emit this (evs ++ replicate n io) st = drain (replicate n io) (emit this evs st).
Proof.
  revert st. induction evs as [|[chunk| | |] evs IH]; intros st; simpl; try done.
  - revert st. induction n as [|n IHn]; intros st; simpl; [done|]. apply IHn.
  - generalize (on_end st). clear. intros st. revert st.
    induction evs as [|ev evs IH]; intros st; simpl.
    + done.
    + destruct ev; apply IH.
Qed.

Lemma ingest_flush this req fs rnd evs st :
  ingest this req fs rnd evs = Some st →
  ingest this req fs rnd (evs ++ waiting (listeners st)) = Some (flush st).
Proof.
  unfold ingest.
  destruct (handleRequest this req fs rnd) as [st0|]; [|done].
  simpl. intros [= <-]. f_equal.
  destruct (listeners (emit this evs st0)) as [|payload|p ws len] eqn:Hl.
  - unfold flush. by rewrite Hl, app_nil_r.
  - unfold flush. by rewrite Hl, app_nil_r.
  - rewrite <- drain_waiting, Hl. simpl. apply emit_app_io.
Qed.

Lemma stream_inv_on_io fs0 (p : string) written ended st :
  stream_inv fs0 p written ended st → stream_inv fs0 p written ended (on_io st).
Proof.
  intros (ws & len & Hl & Hp & He & Hlen & Hcase). unfold on_io. rewrite Hl.
  destruct Hcase as [(Hf & ops & Hops & Hno & Hq)|(content & Hf & Hno & Hq)].
  - rewrite Hops. eexists _, len. simpl. rewrite Hp, Hf.
    split_and!; try done. right. exists []. by split_and!.
  - destruct (ws_pending ws) as [|op ops] eqn:Hops.
    + exists ws, len. split_and!; try done. right. exists content.
      rewrite Hops. by split_and!.
    + apply not_elem_of_cons in Hno as [Hop Hno].
      eexists _, len. simpl. rewrite Hp, Hf. split_and!; try done. right.
      destruct op as [|chunk|]; simpl in *; [done| |].
      * exists (content ++ chunk).
        rewrite lookup_insert_eq, insert_insert_eq. simpl.
        split_and!; try done. by rewrite <- app_assoc.
      * exists content. by split_and!.
Qed.

Lemma stream_inv_drain fs0 (p : string) written ended evs st :
  stream_inv fs0 p written ended st → stream_inv fs0 p written ended (drain evs st).
Proof.
  revert st. induction evs as [|[chunk| | |] evs IH]; intros st Hinv; simpl;
    try done; try by apply IH.
  apply IH. by apply stream_inv_on_io.
Qed.

Lemma stream_inv_settle fs0 (p : string) written ended o st :
  stream_inv fs0 p written ended st → stream_inv fs0 p written ended (settle o st).
Proof.
  intros (ws & len & Hl & Hrest). exists ws, len.
  by rewrite settle_listeners, settle_files.
Qed.

Lemma stream_inv_on_data this fs0 (p : string) written chunk st :
  stream_inv fs0 p written false st →
  stream_inv fs0 p (written ++ chunk) false (on_data this chunk st).
Proof.
  intros (ws & len & Hl & Hp & He & Hlen & Hcase).
  assert (stream_inv fs0 p (written ++ chunk) false
            (set_listeners
               (StreamListeners p (write ws chunk) (len + Buffer.length chunk))
               st)) as Hinv.
  { unfold write. rewrite He. eexists _, _. simpl.
    split_and!; try done.
    - by rewrite Buffer_length_app, Hlen.
    - destruct Hcase as [(Hf & ops & Hops & Hno & Hq)|(content & Hf & Hno & Hq)].
      + left. split; [done|]. exists (ops ++ [OpWrite chunk]).
        rewrite Hops, queued_app, Hq. simpl. rewrite app_nil_r.
        split_and!; try done.
        rewrite elem_of_app, list_elem_of_singleton. by intros [?|?].
      + right. exists content. simpl. rewrite queued_app, app_assoc, Hq. simpl.
        rewrite app_nil_r. split_and!; try done.
        rewrite elem_of_app, list_elem_of_singleton. by intros [?|?]. }
  unfold on_data. rewrite Hl.
  destruct (sizeLimit this) as [limit|]; [|done].
  destruct (_ >? _); [|done]. by apply stream_inv_settle.
Qed.

Lemma stream_inv_on_end fs0 (p : string) written st :
  stream_inv fs0 p written false st → stream_inv fs0 p written true (on_end st).
Proof.
  intros (ws & len & Hl & Hp & He & Hlen & Hcase). unfold on_end. rewrite Hl.
  apply stream_inv_settle. unfold end_stream. rewrite He.
  eexists _, len. simpl. split_and!; try done.
  destruct Hcase as [(Hf & ops & Hops & Hno & Hq)|(content & Hf & Hno & Hq)].
  - left. split; [done|]. exists (ops ++ [OpClose]).
    rewrite Hops, queued_app, Hq. simpl. rewrite app_nil_r.
    split_and!; try done.
    rewrite elem_of_app, list_elem_of_singleton. by intros [?|?].
  - right. exists content. simpl. rewrite queued_app. simpl. rewrite app_nil_r.
    split_and!; try done.
    rewrite elem_of_app, list_elem_of_singleton. by intros [?|?].
Qed.

Lemma stream_inv_emit this fs0 (p : string) written evs st :
  stream_inv fs0 p written false st →
  stream_inv fs0 p (written ++ concat (delivered evs)) (ends evs)
    (emit this evs st).
Proof.
  revert st written.
  induction evs as [|[chunk| | |] evs IH]; intros st written Hinv; simpl.
  - by rewrite app_nil_r.
  - rewrite app_assoc. apply IH. by apply stream_inv_on_data.
  - rewrite app_nil_r. apply stream_inv_drain. by apply stream_inv_on_end.
  - by apply IH.
  - apply IH. by apply stream_inv_on_io.
Qed.

Lemma stream_inv_start fs0 (p : string) (req : HRequest JSValue) rnd o :
  stream_inv fs0 p [] false
    (mkState o req fs0 rnd (StreamListeners p (createWriteStream p) 0)).
Proof.
  eexists _, _. simpl. split_and!; try done. left. split; [done|].
  exists []. split_and!; try done. apply not_elem_of_nil.
Qed.

(** The running count of the listener after a chunk. *)
Lemma on_data_stream_promise this chunk st p ws len :
  listeners st = StreamListeners p ws len →
  rejected_above_limit this st len →
  rejected_above_limit this (on_data this chunk st) (len + Buffer.length chunk).
Proof.
  intros Hl Hrej. unfold on_data. rewrite Hl.
  pose proof (Buffer_length_nonneg chunk) as Hc.
  set (st1 := set_listeners _ st).
  assert (rejected_above_limit this st1 (len + Buffer.length chunk)) as Hrej'.
  { intros reason Hr. destruct (Hrej reason Hr) as (limit & ? & ? & ?).
    exists limit. split_and!; try done. lia. }
  destruct (sizeLimit this) as [limit|] eqn:Hlim; [|done].
  destruct (Z.gtb_spec (len + Buffer.length chunk) limit) as [Hgt|Hle]; [|done].
  intros reason Hr. apply settle_rejected in Hr as [[_ [= <-]]|Hr].
  - by exists limit.
  - by apply Hrej'.
Qed.

Lemma emit_stream_promise this evs st p written fs0 :
  stream_inv fs0 p written false st →
  rejected_above_limit this st (Buffer.length written) →
  rejected_above_limit this (emit this evs st)
    (Buffer.length (written ++ concat (delivered evs))).
Proof.
  revert st written.
  induction evs as [|[chunk| | |] evs IH]; intros st written Hinv Hrej; simpl.
  - by rewrite app_nil_r.
  - rewrite app_assoc. apply IH; [by apply stream_inv_on_data|].
    destruct Hinv as (ws & len & Hl & _ & _ & -> & _).
    rewrite Buffer_length_app. by apply (on_data_stream_promise _ _ _ p ws).
  - rewrite app_nil_r. intros reason Hr.
    rewrite (proj1 (drain_frame evs (on_end st))) in Hr.
    apply Hrej. unfold on_end in Hr.
    destruct (listeners st); [done| |];
      by apply settle_rejected in Hr as [[_ ?]|Hr].
  - by apply IH.
  - apply IH; [by apply stream_inv_on_io|].
    intros reason Hr. rewrite (proj1 (on_io_frame st)) in Hr. by apply Hrej.
Qed.

Lemma emit_random this evs st : random (emit this evs st) = random st.
Proof.
  revert st. induction evs as [|[chunk| | |] evs IH]; intros st; simpl; try done.
  - rewrite IH. unfold on_data.
    destruct (listeners st) as [|payload|filePath ws len]; [done| |];
      destruct (sizeLimit this) as [limit|]; try done;
      match goal with |- context [if ?c then _ else _] => destruct c end;
      try done; unfold reject; by rewrite settle_random.
  - destruct (drain_frame evs (on_end st)) as (_ & _ & -> & _).
    unfold on_end. destruct (listeners st); try done;
      unfold resolve; by rewrite settle_random.
  - by destruct (on_io_frame st) as (_ & _ & <- & _).
Qed.

Lemma existsSync_insert fs (p : string) (content : Buffer.t) :
  existsSync (<[p := content]> fs) p = true.
Proof. unfold existsSync. by rewrite lookup_insert_eq. Qed.

Lemma getNewFilePath_absent fs rnd (filePath : string) rnd' :
  getNewFilePath fs rnd = Some (filePath, rnd') → existsSync fs filePath = false.
Proof.
  induction rnd as [|bytes rnd IH]; simpl; [done|].
  destruct (existsSync fs ("/tmp/" +:+ Buffer.toString_hex bytes)) eqn:Hex;
    [done|]. by intros [= <- <-].
Qed.

(** C1, amended. A rejected ingestion in stream mode is of one of two
    kinds. Rejected by the check of the declared type or of the declared
    length, it has drawn no path, opened no write stream and left the file
    system as it was. Rejected by the size check while the chunks arrive,
    it asks for no deletion: the write stream on the drawn path, absent
    before the call, has been handed every chunk that reached the
    listener; the file system holds what it held before and at most the
    temporary file in addition; and once the event loop has carried out
    what the write stream waits for, the temporary file exists and holds
    all these chunks. *)
Theorem rejected_stream_ingestion_files this req fs rnd evs st reason :
  location this = STREAM →
  ingest this req fs rnd evs = Some st →
  promise st = Rejected reason →
  (listeners st = NoListeners ∧ files st = fs ∧ random st = rnd
   ∧ ∃ e, reason = HErr e ∧ (code e = 415 ∨ code e = 413))
  ∨ (∃ filePath rnd' ws len limit,
        getNewFilePath fs rnd = Some (filePath, rnd')
        ∧ sizeLimit this = Some limit
        ∧ reason = HErr (fileTooLarge limit)
        ∧ limit < Buffer.length (concat (delivered evs))
        ∧ listeners st = StreamListeners filePath ws len
        ∧ ws_path ws = filePath
        ∧ existsSync fs filePath = false
        ∧ (files st = fs ∨ ∃ content, files st = <[filePath := content]> fs)
        ∧ ingest this req fs rnd (evs ++ waiting (listeners st))
          = Some (flush st)
        ∧ files (flush st) = <[filePath := concat (delivered evs)]> fs
        ∧ existsSync (files (flush st)) filePath = true).
Proof.
  intros Hloc Hst. pose proof (ingest_flush this req fs rnd evs st Hst) as Hfl.
  revert Hst. unfold ingest at 1, handleRequest.
  destruct (checkContentType this req) as [[]|e] eqn:Hct.
  - destruct (checkContentLength this req) as [e|] eqn:Hcl.
    + simpl. intros [= <-]. rewrite emit_NoListeners by done. simpl.
      intros [= <-]. left. repeat split. exists e. split; [done|].
      right. unfold checkContentLength in Hcl.
      destruct (sizeLimit this); [|done].
      destruct (getHeaders req !! "content-length"); [|done].
      destruct (parseInt s); [|done].
      destruct (_ && _); [|done]. by injection Hcl as <-.
    + unfold registerListeners. rewrite Hloc. simpl.
      destruct (getNewFilePath fs rnd) as [[filePath rnd']|] eqn:Hpath;
        [|done].
      simpl. intros [= <-] Hrej. right.
      set (st0 := mkState _ _ _ _ _) in *.
      pose proof (stream_inv_start fs filePath req rnd' Pending) as Hinv0.
      pose proof (stream_inv_emit this fs filePath [] evs st0 Hinv0) as Hinv.
      assert (rejected_above_limit this st0 (Buffer.length [])) as Hrej0
        by (intros r Hr; done).
      pose proof (emit_stream_promise this evs st0 filePath [] fs Hinv0 Hrej0)
        as Habove.
      simpl in Hinv, Habove.
      destruct (Habove reason Hrej) as (limit & Hlim & -> & Hgt).
      destruct (stream_inv_flush _ _ _ _ _ Hinv) as [Hflush Hnow].
      destruct Hinv as (ws & len & Hl & Hp & _).
      exists filePath, rnd', ws, len, limit.
      split_and!; try done.
      * by apply (getNewFilePath_absent fs rnd filePath rnd').
      * rewrite Hflush. apply existsSync_insert.
  - simpl. intros [= <-]. rewrite emit_NoListeners by done. simpl.
    intros [= <-]. left. repeat split.
    unfold checkContentType, throwFileIncorrectType in Hct.
    destruct (allowedExtensions this) as [exts|]; [|done].
    exists (fileIncorrectType exts). split; [|by left].
    destruct (getHeaders req !! "content-type");
      [destruct (_ =? _)|]; congruence.
Qed.

(** *** What the call leaves behind *)

Lemma handleRequest_cases this req fs rnd st0 :
  handleRequest this req fs rnd = Some st0 →
  (∃ reason, st0 = mkState (Rejected reason) req fs rnd NoListeners)
  ∨ (location this = PAYLOAD
     ∧ st0 = mkState Pending req fs rnd (PayloadListeners []))
  ∨ (∃ filePath rnd',
        location this = STREAM
        ∧ getNewFilePath fs rnd = Some (filePath, rnd')
        ∧ st0 = mkState Pending req fs rnd'
                  (StreamListeners filePath (createWriteStream filePath) 0)).
Proof.
  unfold handleRequest, registerListeners.
  destruct (checkContentType this req) as [[]|e];
    [destruct (checkContentLength this req) as [e|]|].
  - intros [= <-]. left. by eexists.
  - destruct (location this); simpl.
    + intros [= <-]. right. by left.
    + destruct (getNewFilePath fs rnd) as [[filePath rnd']|]; [|done].
      intros [= <-]. right. right. by exists filePath, rnd'.
  - intros [= <-]. left. by eexists.
Qed.

(** C3, amended. A rejection issued by the check of the declared type or
    length comes before any listener is registered: no event is handled
    afterwards and nothing is written. A rejection issued while the chunks
    arrive is final, whatever happens next; the listeners stay registered,
    so a chunk that arrives later is still appended to the buffer, or
    handed to the write stream, which puts it in its queue and, once the
    event loop has carried the queue out, in the file. *)
Theorem events_after_rejection this req fs rnd st0 :
  handleRequest this req fs rnd = Some st0 →
  (∀ reason, promise st0 = Rejected reason →
     listeners st0 = NoListeners ∧ ∀ evs, emit this evs st0 = st0)
  ∧ (∀ evs evs' reason,
       promise (emit this evs st0) = Rejected reason →
       promise (emit this (evs ++ evs') st0) = Rejected reason)
  ∧ (∀ (chunks : list Buffer.t) chunk,
       let st := emit this (data <$> chunks) st0 in
       match listeners st0 with
       | NoListeners => on_data this chunk st = st
       | PayloadListeners _ =>
           listeners (on_data this chunk st)
           = PayloadListeners (concat chunks ++ chunk)
       | StreamListeners filePath _ _ =>
           listeners (on_data this chunk st)
           = StreamListeners filePath
               (mkWriteStream filePath
                  (OpOpen :: (OpWrite <$> chunks) ++ [OpWrite chunk]) false)
               (Buffer.length (concat chunks ++ chunk))
           ∧ files (flush (on_data this chunk st)) !! filePath
             = Some (concat chunks ++ chunk)
       end).
Proof.
  intros Hst0. split; [|split].
  - intros reason Hrej.
    destruct (handleRequest_cases this req fs rnd st0 Hst0)
      as [[r ->]|[[_ ->]|(filePath & rnd' & _ & _ & ->)]]; try done.
    split; [done|]. intros evs. by apply emit_NoListeners.
  - intros evs evs' reason Hrej.
    rewrite emit_app_settled; [done | by rewrite Hrej].
  - intros chunks chunk st.
    destruct (handleRequest_cases this req fs rnd st0 Hst0)
      as [[r ->]|[[_ ->]|(filePath & rnd' & _ & _ & ->)]]; simpl.
    + apply on_data_NoListeners. subst st. by rewrite emit_NoListeners.
    + apply on_data_PayloadListeners. subst st.
      by rewrite (emit_data_PayloadListeners this chunks _ []).
    + set (st1 := mkState _ _ _ _ _) in *.
      pose proof (stream_inv_start fs filePath req rnd' Pending) as Hinv0.
      pose proof (stream_inv_emit this fs filePath [] (data <$> chunks) st1 Hinv0)
        as Hinv.
      rewrite delivered_data, ends_data in Hinv. simpl in Hinv. fold st in Hinv.
      pose proof (stream_inv_on_data this fs filePath _ chunk st Hinv) as Hinv'.
      destruct (stream_inv_flush _ _ _ _ _ Hinv') as [Hflush _].
      split; [|by rewrite Hflush, lookup_insert_eq].
      assert (∀ cs (s0 : State JSValue) ops len,
                listeners s0
                = StreamListeners filePath (mkWriteStream filePath ops false) len →
                listeners (emit this (data <$> cs) s0)
                = StreamListeners filePath
                    (mkWriteStream filePath (ops ++ (OpWrite <$> cs)) false)
                    (len + Buffer.length (concat cs))) as Hrun.
      { clear. induction cs as [|c cs IH]; intros s0 ops len Hl; simpl.
        - by rewrite app_nil_r, Z.add_0_r.
        - rewrite (IH _ (ops ++ [OpWrite c]) (len + Buffer.length c)).
          + by rewrite <- app_assoc, Buffer_length_app, Z.add_assoc.
          + unfold on_data. rewrite Hl. unfold write. simpl.
            destruct (sizeLimit this) as [limit|]; [|done].
            destruct (_ >? _); [|done]. unfold reject.
            by rewrite settle_listeners. }
      pose proof (Hrun (chunks ++ [chunk]) st1 [OpOpen] 0 eq_refl) as Hl.
      rewrite fmap_app, emit_app_data in Hl. simpl in Hl. fold st in Hl.
      rewrite Hl. f_equal.
      * by rewrite fmap_app.
      * rewrite concat_app. simpl. by rewrite app_nil_r.
Qed.

(** *** One kind of payload *)

Lemma on_data_isPayloadListeners this chunk st :
  isPayloadListeners (listeners (on_data this chunk st))
  = isPayloadListeners (listeners st).
Proof.
  unfold on_data.
  destruct (listeners st) as [|payload|filePath ended len] eqn:Hl;
    [by rewrite Hl| |];
    destruct (sizeLimit this) as [limit|]; try done;
    match goal with |- context [if ?c then _ else _] => destruct c end;
    try done; unfold reject; by rewrite settle_listeners.
Qed.

Lemma on_data_isStreamListeners this chunk st :
  isStreamListeners (listeners (on_data this chunk st))
  = isStreamListeners (listeners st).
Proof.
  unfold on_data.
  destruct (listeners st) as [|payload|filePath ended len] eqn:Hl;
    [by rewrite Hl| |];
    destruct (sizeLimit this) as [limit|]; try done;
    match goal with |- context [if ?c then _ else _] => destruct c end;
    try done; unfold reject; by rewrite settle_listeners.
Qed.

Lemma emit_payload_kept this evs st :
  isPayloadListeners (listeners st) = false →
  payload (request (emit this evs st)) = payload (request st).
Proof.
  revert st. induction evs as [|[chunk| | |] evs IH]; intros st Hk; simpl;
    try done.
  - rewrite IH by by rewrite on_data_isPayloadListeners.
    by rewrite on_data_request.
  - destruct (drain_frame evs (on_end st)) as (_ & -> & _).
    unfold on_end. destruct (listeners st); try done.
    unfold resolve. by rewrite settle_request.
  - by apply IH.
  - destruct (on_io_frame st) as (_ & Hr & _ & _ & Hp & _).
    rewrite IH by by rewrite Hp. by rewrite Hr.
Qed.

Lemma emit_payloadSteamPath_kept this evs st :
  isStreamListeners (listeners st) = false →
  payloadSteamPath (request (emit this evs st)) = payloadSteamPath (request st).
Proof.
  revert st. induction evs as [|[chunk| | |] evs IH]; intros st Hk; simpl;
    try done.
  - rewrite IH by by rewrite on_data_isStreamListeners.
    by rewrite on_data_request.
  - destruct (drain_frame evs (on_end st)) as (_ & -> & _).
    unfold on_end. destruct (listeners st); try done.
    unfold resolve. by rewrite settle_request.
  - by apply IH.
  - destruct (on_io_frame st) as (_ & Hr & _ & Hs & _).
    rewrite IH by by rewrite Hs. by rewrite Hr.
Qed.

(** C9. An ingestion on a request that holds neither payload sets at most
    one of them: in buffer mode the path stays absent, in stream mode the
    bytes stay absent. *)
Theorem one_payload_kind this req fs rnd evs st :
  payload req = None →
  payloadSteamPath req = None →
  ingest this req fs rnd evs = Some st →
  (payload (request st) = None ∨ payloadSteamPath (request st) = None)
  ∧ (location this = PAYLOAD → payloadSteamPath (request st) = None)
  ∧ (location this = STREAM → payload (request st) = None).
Proof.
  intros Hp Hs. unfold ingest.
  destruct (handleRequest this req fs rnd) as [st0|] eqn:Hst0; [|done].
  simpl. intros [= <-].
  destruct (handleRequest_cases this req fs rnd st0 Hst0)
    as [[r ->]|[[Hloc ->]|(filePath & rnd' & Hloc & _ & ->)]].
  - rewrite emit_NoListeners by done. simpl. auto.
  - rewrite emit_payloadSteamPath_kept by done. simpl.
    rewrite Hloc. repeat split; auto. done.
  - rewrite emit_payload_kept by done. simpl.
    rewrite Hloc. repeat split; auto. done.
Qed.

(** *** Decoding of the payload *)

Section DecodingProperties.

Variable toString_utf8 : Buffer.t → completion string.
Variable JSON_parse : string → completion JSValue.
Variable ObjectTypeDefinition : Type.
Variable checkConformity : ObjectTypeDefinition → JSValue → bool.

(** C7. [fetchPayload] returns normally on every request. Without a
    payload, and when the decoding or the parsing throws, it leaves the
    request as it was, so a decoded value that was absent stays absent;
    when both succeed it stores the value. Afterwards
    [verifyPayloadAgainstTypeDefinition] throws an [HError] of status 400,
    and nothing else, exactly when no decoded value is present or the
    decoded value does not conform. *)
Theorem payload_decoding_never_raises
    (r : HRequest JSValue) (types : ObjectTypeDefinition) :
  ∃ r',
    fetchPayload toString_utf8 JSON_parse r = Normal r'
    ∧ (payload r = None → r' = r)
    ∧ (∀ p e, payload r = Some p →
              bind (toString_utf8 p) JSON_parse = Throw e →
              r' = r ∧ (payloadObject r = None → payloadObject r' = None))
    ∧ (∀ p o, payload r = Some p →
              bind (toString_utf8 p) JSON_parse = Normal o →
              r' = setPayloadObject o r)
    ∧ ((∃ e, verifyPayloadAgainstTypeDefinition ObjectTypeDefinition
               checkConformity types r' = Throw (HErr e) ∧ code e = 400)
       ↔ (payloadObject r' = None
          ∨ ∃ o, payloadObject r' = Some o ∧ checkConformity types o = false))
    ∧ (verifyPayloadAgainstTypeDefinition ObjectTypeDefinition
         checkConformity types r' = Normal ()
       ∨ ∃ e, verifyPayloadAgainstTypeDefinition ObjectTypeDefinition
                checkConformity types r' = Throw (HErr e) ∧ code e = 400).
Proof.
  assert (∀ r' : HRequest JSValue,
    ((∃ e, verifyPayloadAgainstTypeDefinition ObjectTypeDefinition
             checkConformity types r' = Throw (HErr e) ∧ code e = 400)
     ↔ (payloadObject r' = None
        ∨ ∃ o, payloadObject r' = Some o ∧ checkConformity types o = false))
    ∧ (verifyPayloadAgainstTypeDefinition ObjectTypeDefinition
         checkConformity types r' = Normal ()
       ∨ ∃ e, verifyPayloadAgainstTypeDefinition ObjectTypeDefinition
                checkConformity types r' = Throw (HErr e) ∧ code e = 400))
    as Hverify.
  { intros r'. unfold verifyPayloadAgainstTypeDefinition.
    destruct (payloadObject r') as [o|].
    - destruct (checkConformity types o) eqn:Hc; simpl.
      + split; [|by left]. split.
        * by intros (e & ? & _).
        * intros [?|(o' & [= <-] & ?)]; congruence.
      + split; [|right; by exists payloadNotValid]. split.
        * intros _. right. by exists o.
        * intros _. by exists payloadNotValid.
    - split; [|right; by exists payloadUndefined]. split.
      + intros _. by left.
      + intros _. by exists payloadUndefined. }
  unfold fetchPayload. destruct (payload r) as [p|] eqn:Hp.
  - destruct (toString_utf8 p) as [payloadString|e1] eqn:Hs; simpl.
    + destruct (JSON_parse payloadString) as [o|e2] eqn:Ho; simpl.
      * exists (setPayloadObject o r). split; [done|]. split; [done|].
        split; [|split; [|apply Hverify]].
        -- intros p' e [= <-]. rewrite Hs. simpl. by rewrite Ho.
        -- intros p' o' [= <-]. rewrite Hs. simpl. rewrite Ho.
           by intros [= <-].
      * exists r. split; [done|]. split; [done|].
        split; [|split; [|apply Hverify]].
        -- done.
        -- intros p' o' [= <-]. rewrite Hs. simpl. by rewrite Ho.
    + exists r. split; [done|]. split; [done|].
      split; [|split; [|apply Hverify]].
      * done.
      * intros p' o' [= <-]. by rewrite Hs.
  - exists r. split; [done|]. split; [done|].
    split; [|split; [|apply Hverify]]; done.
Qed.

End DecodingProperties.

End Properties.

(** ** The theorems at sample inputs *)

Section Witnesses.

Import Samples.

Lemma incorrect_content_type_rejected_witness :
  allowedExtensions pngOnly10 = Some ["image/png"]
  ∧ ∃ st, handleRequest pngOnly10 textPlain100 ∅ [bytesA] = Some st
          ∧ promise st = Rejected (HErr (fileIncorrectType ["image/png"]))
          ∧ listeners st = NoListeners.
Proof.
  split; [reflexivity|].
  destruct (incorrect_content_type_rejected pngOnly10 textPlain100 ∅ [bytesA]
              ["image/png"]) as (st & H1 & H2 & _ & H3 & _).
  - reflexivity.
  - intros mime H. vm_compute in H. injection H as <-.
    apply not_elem_of_cons. split; [discriminate | apply not_elem_of_nil].
  - exists st. auto.
Defined.

Lemma declared_length_too_large_rejected_witness :
  parseInt "100" = Some 100
  ∧ ∃ st, handleRequest buffer10 length100 ∅ [] = Some st
          ∧ promise st = Rejected (HErr (fileTooLarge 10))
          ∧ listeners st = NoListeners.
Proof.
  split; [reflexivity|].
  destruct (declared_length_too_large_rejected buffer10 length100 ∅ []
              10 "100" 100) as (st & H1 & H2 & _ & H3 & _).
  - reflexivity.
  - reflexivity.
  - reflexivity.
  - reflexivity.
  - lia.
  - exists st. auto.
Defined.


Lemma buffer_ingestion_success_witness :
  ∃ st,
    ingest buffer10 emptyRequest ∅ [] [data [x00; x01]; data [x02]; end_] = Some st
    ∧ promise st = Fulfilled
    ∧ payload (request st) = Some [x00; x01; x02].
Proof.
  destruct (buffer_ingestion_success buffer10 (emptyRequest) ∅ []
              [[x00; x01]; [x02]]) as (st & H1 & H2 & H3 & _).
  - reflexivity.
  - reflexivity.
  - reflexivity.
  - intros limit H. injection H as <-. vm_compute. discriminate.
  - exists st. auto.
Defined.

Lemma buffer_overflow_rejected_witness :
  promise (emit buffer1024 (data <$> chunks_512_512_1)
             (mkState Pending emptyRequest ∅ [] (PayloadListeners [])))
  = Rejected (HErr (fileTooLarge 1024)).
Proof.
  apply (buffer_overflow_rejected buffer1024 emptyRequest ∅ []
           (mkState Pending emptyRequest ∅ [] (PayloadListeners []))
           1024 chunks_512_512_1).
  - reflexivity.
  - reflexivity.
  - lia.
  - reflexivity.
  - reflexivity.
  - vm_compute. reflexivity.
Defined.

Lemma rejected_stream_ingestion_files_witness :
  ∃ st,
    ingest stream1 emptyRequest ∅ [bytesA] [data [x00; x01]; io] = Some st
    ∧ files (flush st) = <["/tmp/00010203040506ff" := [x00; x01]]> ∅.
Proof.
  destruct (ingest stream1 emptyRequest ∅ [bytesA] [data [x00; x01]; io])
    as [st|] eqn:Hst; [|vm_compute in Hst; discriminate].
  exists st. split; [reflexivity|].
  destruct (rejected_stream_ingestion_files stream1 emptyRequest ∅ [bytesA]
              [data [x00; x01]; io] st (HErr (fileTooLarge 1)))
    as [(Hl & _)|(filePath & rnd' & ws & len & limit & Hp & _ & _ & _ & _ & _
                   & _ & _ & _ & Hf & _)].
  - reflexivity.
  - exact Hst.
  - vm_compute in Hst. injection Hst as <-. reflexivity.
  - vm_compute in Hst. injection Hst as <-. discriminate Hl.
  - vm_compute in Hp. injection Hp as <- <-. exact Hf.
Defined.

Lemma events_after_rejection_witness :
  handleRequest buffer1 emptyRequest ∅ [] = Some buffer_started
  ∧ promise (emit buffer1 [data [x00; x01]] buffer_started)
    = Rejected (HErr (fileTooLarge 1))
  ∧ promise (emit buffer1 ([data [x00; x01]] ++ [data [x02]; end_]) buffer_started)
    = Rejected (HErr (fileTooLarge 1)).
Proof.
  destruct (events_after_rejection buffer1 emptyRequest ∅ [] buffer_started)
    as (_ & H & _).
  - reflexivity.
  - split; [reflexivity|]. split; [reflexivity|]. apply H. reflexivity.
Defined.

Lemma one_payload_kind_witness :
  ∃ st,
    ingest buffer10 emptyRequest ∅ [] [data [x00]; end_] = Some st
    ∧ payloadSteamPath (request st) = None.
Proof.
  destruct (ingest buffer10 emptyRequest ∅ [] [data [x00]; end_])
    as [st|] eqn:Hst; [|vm_compute in Hst; discriminate].
  exists st. split; [reflexivity|].
  destruct (one_payload_kind buffer10 emptyRequest ∅ [] [data [x00]; end_] st)
    as (_ & H & _).
  - reflexivity.
  - reflexivity.
  - exact Hst.
  - apply H. reflexivity.
Defined.

Lemma payload_decoding_never_raises_witness :
  ∃ r',
    fetchPayload toString_latin1 parse_null (withPayload [x7b]) = Normal r'
    ∧ r' = withPayload [x7b]
    ∧ ∃ e, verifyPayloadAgainstTypeDefinition bool conforms true r'
           = Throw (HErr e) ∧ code e = 400.
Proof.
  destruct (payload_decoding_never_raises toString_latin1 parse_null bool
              conforms (withPayload [x7b]) true)
    as (r' & H1 & _ & H2 & _ & H3 & _).
  exists r'. split; [exact H1|].
  destruct (H2 [x7b] (NativeError "SyntaxError")) as [-> H4].
  - reflexivity.
  - reflexivity.
  - split; [reflexivity|]. apply H3. left. reflexivity.
Defined.

(** ** Where the code departs from the specification *)

(** C1 as stated fails: stream mode, limit of one byte, one chunk of two
    bytes. The ingestion is rejected with status 413 and the file is not
    deleted. When the open is carried out before the chunk arrives, the
    file is there at the rejection; when the event loop gets to the write
    stream after the rejection, the file is there from then on, with the
    chunk in it, also after the end of the stream. *)
Lemma rejected_stream_ingestion_file_remains :
  getNewFilePath (∅ : gmap string Buffer.t) [bytesA]
  = Some ("/tmp/00010203040506ff"%string, [])
  ∧ (∃ st,
        ingest stream1 emptyRequest ∅ [bytesA] [io; data [x00; x01]] = Some st
        ∧ promise st = Rejected (HErr (fileTooLarge 1))
        ∧ code (fileTooLarge 1) = 413
        ∧ existsSync (files st) "/tmp/00010203040506ff" = true)
  ∧ (∃ st,
        ingest stream1 emptyRequest ∅ [bytesA] [data [x00; x01]; io; io] = Some st
        ∧ promise st = Rejected (HErr (fileTooLarge 1))
        ∧ files st !! "/tmp/00010203040506ff" = Some [x00; x01])
  ∧ (∃ st,
        ingest stream1 emptyRequest ∅ [bytesA]
          [data [x00; x01]; end_; io; io; io] = Some st
        ∧ promise st = Rejected (HErr (fileTooLarge 1))
        ∧ files st !! "/tmp/00010203040506ff" = Some [x00; x01]).
Proof.
  split; [reflexivity|]. split; [|split].
  - eexists. split; [vm_compute; reflexivity|]. repeat split.
  - eexists. split; [vm_compute; reflexivity|]. repeat split.
  - eexists. split; [vm_compute; reflexivity|]. repeat split.
Qed.

(** C2 as stated fails: buffer mode, limit of 1024 bytes, chunks of 512,
    512 and 1 bytes, then the end of the stream. The ingestion is rejected
    with status 413, the buffer is kept, and the listener of ["end"]
    attaches all 1025 bytes to the request. *)
Lemma buffer_overflow_payload_attached :
  1024 < Buffer.length (concat chunks_512_512_1)
  ∧ ∃ st,
      ingest buffer1024 emptyRequest ∅ [] ((data <$> chunks_512_512_1) ++ [end_])
      = Some st
      ∧ promise st = Rejected (HErr (fileTooLarge 1024))
      ∧ listeners st = PayloadListeners (concat chunks_512_512_1)
      ∧ payload (request st) = Some (concat chunks_512_512_1)
      ∧ Buffer.length (concat chunks_512_512_1) = 1025.
Proof.
  split; [by vm_compute|].
  eexists. split; [vm_compute; reflexivity|]. repeat split.
Qed.

(** C3 as stated fails. Buffer mode, limit of one byte: the first chunk,
    of two bytes, rejects the promise, and the chunk that comes next is
    appended to the buffer all the same. Stream mode, same limit and
    chunks: the later chunk is handed to the write stream, and is in the
    file once the event loop has carried the queue out. *)
Lemma chunk_consumed_after_rejection :
  (promise (emit buffer1 [data [x00; x01]] buffer_started)
   = Rejected (HErr (fileTooLarge 1))
   ∧ listeners (emit buffer1 [data [x00; x01]] buffer_started)
     = PayloadListeners [x00; x01]
   ∧ listeners (on_data buffer1 [x02]
                  (emit buffer1 [data [x00; x01]] buffer_started))
     = PayloadListeners [x00; x01; x02])
  ∧ ∃ st0,
      handleRequest stream1 emptyRequest ∅ [bytesA] = Some st0
      ∧ promise (emit stream1 [data [x00; x01]] st0)
        = Rejected (HErr (fileTooLarge 1))
      ∧ listeners (on_data stream1 [x02] (emit stream1 [data [x00; x01]] st0))
        = StreamListeners "/tmp/00010203040506ff"
            (mkWriteStream "/tmp/00010203040506ff"
               [OpOpen; OpWrite [x00; x01]; OpWrite [x02]] false) 3
      ∧ files (emit stream1 [data [x00; x01]; data [x02]; io; io; io] st0)
          !! "/tmp/00010203040506ff"
        = Some [x00; x01; x02].
Proof.
  split; [repeat split|].
  eexists. split; [vm_compute; reflexivity|]. repeat split.
Qed.

(** C6 as stated fails: with an allow-list that does not hold the declared
    content type, a declared length above the limit is not looked at; the
    rejection is that of the content type, with status 415. *)
Lemma declared_length_check_comes_second :
  sizeLimit pngOnly10 = Some 10
  ∧ headers textPlain100 !! "content-length" = Some "100"%string
  ∧ parseInt "100" = Some 100
  ∧ 10 < 100
  ∧ ∃ st,
      handleRequest pngOnly10 textPlain100 ∅ [] = Some st
      ∧ promise st = Rejected (HErr (fileIncorrectType ["image/png"]))
      ∧ code (fileIncorrectType ["image/png"]) = 415
      ∧ promise st ≠ Rejected (HErr (fileTooLarge 10)).
Proof.
  repeat split; try reflexivity.
  eexists. split; [vm_compute; reflexivity|]. repeat split. discriminate.
Qed.

End Witnesses.

(** ** Further properties of the code *)

Section MoreProperties.

Context {JSValue : Type}.

Implicit Types (this : HUploadManager) (req : HRequest JSValue).
Implicit Types (st : State JSValue) (fs : gmap string Buffer.t).
Implicit Types (rnd : list Buffer.t) (evs : list Event) (chunk : Buffer.t).

(** *** [getEndpoint] *)

Lemma split_nonempty (sep : ascii) (s : string) : split sep s ≠ [].
Proof.
  destruct s as [|c s]; simpl; [done|].
  destruct (Ascii.eqb c sep); [done|]. by destruct (split sep s).
Qed.

Lemma split_last (sep : ascii) (s : string) :
  ∃ pre e,
    last (split sep s) = Some e
    ∧ s = pre +:+ e
    ∧ contains sep e = false
    ∧ (List.length (split sep s) = 1%nat → pre = EmptyString)
    ∧ ((1 < List.length (split sep s))%nat
       → ∃ pre', pre = pre' +:+ String sep EmptyString).
Proof.
  induction s as [|c s (pre & e & Hlast & Hs & He & Hone & Hmore)]; simpl.
  - exists EmptyString, EmptyString. split_and!; try done. simpl. lia.
  - pose proof (split_nonempty sep s) as Hnil.
    destruct (split sep s) as [|piece pieces] eqn:Hsp; [done|].
    destruct (Ascii.eqb_spec c sep) as [->|Hne].
    + exists (String sep pre), e. split_and!.
      * done.
      * simpl. by rewrite Hs.
      * done.
      * simpl. lia.
      * intros _. destruct pieces as [|piece' pieces].
        -- rewrite Hone by done. by exists EmptyString.
        -- destruct Hmore as [pre' ->]; [simpl; lia|].
           by exists (String sep pre').
    + destruct pieces as [|piece' pieces].
      * exists EmptyString, (String c e).
        rewrite (Hone eq_refl) in Hs. simpl in Hs, Hlast.
        injection Hlast as ->. split_and!.
        -- done.
        -- simpl. by rewrite Hs.
        -- simpl. rewrite He. by destruct (Ascii.eqb_spec c sep).
        -- done.
        -- simpl. lia.
      * exists (String c pre), e. split_and!.
        -- done.
        -- simpl. by rewrite Hs.
        -- done.
        -- simpl. lia.
        -- intros _. destruct Hmore as [pre' ->]; [simpl; lia|].
           by exists (String c pre').
Qed.

Lemma getEndpoint_last req : getEndpoint req = last (split "/" (url req)).
Proof.
  unfold getEndpoint, getUrl.
  pose proof (split_nonempty "/" (url req)) as Hnil.
  destruct (split "/" (url req)) as [|piece pieces] eqn:Hsp; [done|].
  rewrite last_lookup.
  destruct (Z.ltb_spec (Z.of_nat (List.length (piece :: pieces)) - 1) 0)
    as [Hlt|_]; [rewrite length_cons in Hlt; lia|].
  f_equal. rewrite length_cons. lia.
Qed.

(** X1. [getEndpoint] always returns a string: the part of the url after
    its last ["/"], or the whole url when it holds none. The result holds
    no ["/"], and what stands before it in the url is empty or ends with
    ["/"]. *)
Theorem getEndpoint_last_segment req :
  ∃ pre e,
    getEndpoint req = Some e
    ∧ url req = pre +:+ e
    ∧ contains "/" e = false
    ∧ (pre = EmptyString ∨ ∃ pre', pre = pre' +:+ "/")
    ∧ (contains "/" (url req) = false → e = url req).
Proof.
  destruct (split_last "/" (url req)) as (pre & e & Hlast & Hs & He & Hone & Hmore).
  exists pre, e. rewrite getEndpoint_last.
  split; [done|]. split; [done|]. split; [done|].
  assert (pre = EmptyString ∨ ∃ pre', pre = pre' +:+ "/") as Hpre.
  { destruct (split "/" (url req)) as [|piece [|piece' pieces]]; [done| |].
    - left. by apply Hone.
    - right. apply Hmore. simpl. lia. }
  split; [done|].
  intros Hno. destruct Hpre as [->|[pre' ->]]; [done|].
  rewrite Hs in Hno. exfalso. clear -Hno.
  induction pre' as [|c pre' IH]; simpl in Hno; [done|].
  destruct (Ascii.eqb c "/"); [done|]. by apply IH.
Qed.

Lemma split_no_sep (sep : ascii) (s : string) :
  contains sep s = false → split sep s = [s].
Proof.
  induction s as [|c s IH]; simpl; [done|].
  destruct (Ascii.eqb c sep); [done|]. simpl. intros Hs. by rewrite IH.
Qed.

Lemma split_app_sep (sep : ascii) (pre s : string) :
  split sep (pre +:+ String sep s) = split sep pre ++ split sep s.
Proof.
  induction pre as [|c pre IH]; simpl.
  - by rewrite Ascii.eqb_refl.
  - rewrite IH. destruct (Ascii.eqb c sep); [done|].
    pose proof (split_nonempty sep pre).
    by destruct (split sep pre).
Qed.

(** X2. The endpoint of a url made of any prefix, a ["/"] and a name
    without ["/"] is that name; so the endpoint of a url that ends with
    ["/"] is the empty string. *)
Theorem getEndpoint_of_path req (pre name : string) :
  url req = pre +:+ String "/" name →
  contains "/" name = false →
  getEndpoint req = Some name.
Proof.
  intros Hurl Hname. rewrite getEndpoint_last, Hurl, split_app_sep.
  rewrite (split_no_sep "/" name Hname). apply last_snoc.
Qed.

(** *** What an ingestion touches *)

Lemma on_data_files this chunk st : files (on_data this chunk st) = files st.
Proof.
  unfold on_data.
  destruct (listeners st) as [|payload|filePath ws len]; [done| |];
    destruct (sizeLimit this) as [limit|]; try done;
    match goal with |- context [if ?c then _ else _] => destruct c end;
    try done; unfold reject; by rewrite settle_files.
Qed.

Lemma on_end_frame st :
  files (on_end st) = files st
  ∧ headers (request (on_end st)) = headers (request st)
  ∧ url (request (on_end st)) = url (request st)
  ∧ payloadObject (request (on_end st)) = payloadObject (request st)
  ∧ isStreamListeners (listeners (on_end st)) = isStreamListeners (listeners st).
Proof.
  unfold on_end.
  destruct (listeners st) as [|payload|filePath ws len] eqn:Hl;
    [by rewrite Hl| |];
    unfold resolve;
    by rewrite settle_files, settle_request, settle_listeners; simpl;
       rewrite ?Hl.
Qed.

Lemma emit_isStreamListeners this evs st :
  isStreamListeners (listeners (emit this evs st))
  = isStreamListeners (listeners st).
Proof.
  revert st. induction evs as [|[chunk| | |] evs IH]; intros st; simpl; try done.
  - by rewrite IH, on_data_isStreamListeners.
  - destruct (drain_frame evs (on_end st)) as (_ & _ & _ & -> & _).
    by destruct (on_end_frame st) as (_ & _ & _ & _ & ->).
  - rewrite IH. by destruct (on_io_frame st) as (_ & _ & _ & -> & _).
Qed.

Lemma emit_frame this evs st :
  headers (request (emit this evs st)) = headers (request st)
  ∧ url (request (emit this evs st)) = url (request st)
  ∧ payloadObject (request (emit this evs st)) = payloadObject (request st)
  ∧ (isStreamListeners (listeners st) = false →
     files (emit this evs st) = files st).
Proof.
  revert st. induction evs as [|[chunk| | |] evs IH]; intros st; simpl;
    try done.
  - destruct (IH (on_data this chunk st)) as (Hh & Hu & Ho & Hf).
    rewrite Hh, Hu, Ho, on_data_request. split_and!; try done.
    intros Hk. rewrite Hf by by rewrite on_data_isStreamListeners.
    apply on_data_files.
  - destruct (drain_frame evs (on_end st)) as (_ & -> & _ & _).
    destruct (on_end_frame st) as (Hf & Hh & Hu & Ho & Hk).
    split_and!; try done.
    intros Hs. rewrite drain_not_stream by by rewrite Hk. done.
  - destruct (IH (on_io st)) as (Hh & Hu & Ho & Hf).
    destruct (on_io_frame st) as (_ & Hr & _ & Hk & _).
    rewrite Hh, Hu, Ho, Hr. split_and!; try done.
    intros Hs. rewrite Hf by by rewrite Hk. by rewrite on_io_not_stream.
Qed.

Lemma handleRequest_pending this req fs rnd st0 :
  handleRequest this req fs rnd = Some st0 →
  promise st0 = Pending →
  checkContentType this req = Normal ()
  ∧ checkContentLength this req = None
  ∧ registerListeners this (mkState Pending req fs rnd NoListeners) = Some st0.
Proof.
  unfold handleRequest.
  destruct (checkContentType this req) as [[]|e];
    [destruct (checkContentLength this req) as [e|]|].
  - by intros [= <-].
  - done.
  - by intros [= <-].
Qed.

(** What stream mode keeps true, from the call on. *)
Lemma ingest_stream_inv this req fs rnd evs (filePath : string) rnd' :
  getNewFilePath fs rnd = Some (filePath, rnd') →
  stream_inv fs filePath (concat (delivered evs)) (ends evs)
    (emit this evs
       (mkState Pending req fs rnd'
          (StreamListeners filePath (createWriteStream filePath) 0))).
Proof.
  intros _.
  apply (stream_inv_emit this fs filePath [] evs). apply stream_inv_start.
Qed.

(** X3. Whatever the mode, the checks and the events, an ingestion leaves
    the headers, the url and the decoded value of the request as they
    were, never changes a file that existed before the call, and creates
    at most the one file its write stream opens; in buffer mode it touches
    neither the file system nor the random source. *)
Theorem ingestion_frame this req fs rnd evs st :
  ingest this req fs rnd evs = Some st →
  headers (request st) = headers req
  ∧ url (request st) = url req
  ∧ payloadObject (request st) = payloadObject req
  ∧ (∀ p, existsSync fs p = true → files st !! p = fs !! p)
  ∧ (∀ p, fs !! p = None → is_Some (files st !! p) →
          ∃ ws len, listeners st = StreamListeners p ws len)
  ∧ (location this = PAYLOAD → files st = fs ∧ random st = rnd).
Proof.
  unfold ingest.
  destruct (handleRequest this req fs rnd) as [st0|] eqn:Hst0; [|done].
  simpl. intros [= <-].
  destruct (emit_frame this evs st0) as (Hh & Hu & Ho & Hf).
  rewrite Hh, Hu, Ho, emit_random.
  destruct (handleRequest_cases this req fs rnd st0 Hst0)
    as [[r ->]|[[Hloc ->]|(filePath & rnd' & Hloc & Hpath & ->)]]; simpl.
  - rewrite Hf by done. simpl. split_and!; try done.
    intros p Hp [content Hc]. congruence.
  - rewrite Hf by done. simpl. split_and!; try done.
    intros p Hp [content Hc]. congruence.
  - pose proof (ingest_stream_inv this req fs rnd evs filePath rnd' Hpath) as Hinv.
    destruct (stream_inv_flush _ _ _ _ _ Hinv) as [_ Hnow].
    destruct Hinv as (ws & len & Hl & _).
    pose proof (getNewFilePath_absent fs rnd filePath rnd' Hpath) as Hfresh.
    rewrite Hloc. split_and!; try done.
    + intros p Hp. destruct Hnow as [->|[content ->]]; [done|].
      rewrite lookup_insert_ne; [done|]. intros <-. congruence.
    + intros p Hp [content Hc]. destruct Hnow as [Hnow|[content' Hnow]];
        rewrite Hnow in Hc; [congruence|].
      destruct (decide (filePath = p)) as [<-|Hne]; [eauto|].
      rewrite lookup_insert_ne in Hc by done. congruence.
Qed.

(** *** Stream mode: the count, the file and the outcome *)

(** X4. In stream mode, at any moment and whatever the outcome, the
    running count of the listener is the size of the chunks handed over so
    far. The write stream works behind the event loop: as long as its open
    has not been carried out the file system is as before the call and all
    these chunks wait in its queue; afterwards the file at the drawn path
    holds a first part of them and the queue the rest, in order. Once the
    queue has been carried out, which is where the ingestion gets after as
    many completions as operations wait, the file holds exactly these
    chunks. *)
Theorem stream_file_holds_delivered this req fs rnd evs st filePath ws len :
  ingest this req fs rnd evs = Some st →
  listeners st = StreamListeners filePath ws len →
  len = Buffer.length (concat (delivered evs))
  ∧ existsSync fs filePath = false
  ∧ ((files st = fs
      ∧ ∃ ops, ws_pending ws = OpOpen :: ops
               ∧ queued ops = concat (delivered evs))
     ∨ (∃ content,
          files st = <[filePath := content]> fs
          ∧ content ++ queued (ws_pending ws) = concat (delivered evs)))
  ∧ ingest this req fs rnd (evs ++ waiting (listeners st)) = Some (flush st)
  ∧ files (flush st) !! filePath = Some (concat (delivered evs)).
Proof.
  intros Hst. pose proof (ingest_flush this req fs rnd evs st Hst) as Hfl.
  revert Hst. unfold ingest at 1.
  destruct (handleRequest this req fs rnd) as [st0|] eqn:Hst0; [|done].
  simpl. intros [= <-] Hl.
  pose proof (emit_isStreamListeners this evs st0) as Hk. rewrite Hl in Hk.
  destruct (handleRequest_cases this req fs rnd st0 Hst0)
    as [[r ->]|[[Hloc ->]|(p & rnd' & Hloc & Hpath & ->)]]; try done.
  pose proof (ingest_stream_inv this req fs rnd evs p rnd' Hpath) as Hinv.
  destruct (stream_inv_flush _ _ _ _ _ Hinv) as [Hflush _].
  destruct Hinv as (ws' & len' & Hl' & _ & _ & Hlen & Hcase).
  rewrite Hl in Hl'. injection Hl' as <- <- <-.
  split_and!; try done.
  - by apply (getNewFilePath_absent fs rnd filePath rnd').
  - destruct Hcase as [(Hf & ops & Hops & _ & Hq)|(content & Hf & _ & Hq)];
      [left|right]; eauto.
  - by rewrite Hflush, lookup_insert_eq.
Qed.

Lemma on_data_StreamListeners this chunk st p ws len :
  listeners st = StreamListeners p ws len →
  listeners (on_data this chunk st)
  = StreamListeners p (write ws chunk) (len + Buffer.length chunk).
Proof.
  intros Hl. unfold on_data. rewrite Hl.
  destruct (sizeLimit this) as [limit|]; [|done].
  destruct (_ >? _); [|done]. unfold reject. by rewrite settle_listeners.
Qed.

Lemma on_io_StreamListeners st p ws len :
  listeners st = StreamListeners p ws len →
  ∃ ws', listeners (on_io st) = StreamListeners p ws' len.
Proof.
  intros Hl. unfold on_io. rewrite Hl. destruct (ws_pending ws); eauto.
Qed.

(** Within the limit, the promise is pending until the end of the stream
    and fulfilled from then on, with the path attached. *)
Lemma emit_stream_outcome this evs st p ws len :
  listeners st = StreamListeners p ws len →
  promise st = Pending →
  (∀ limit, sizeLimit this = Some limit →
            len + Buffer.length (concat (delivered evs)) ≤ limit) →
  promise (emit this evs st) = (if ends evs then Fulfilled else Pending)
  ∧ request (emit this evs st)
    = (if ends evs then setPayloadStreamPath p (request st) else request st).
Proof.
  revert st ws len.
  induction evs as [|[chunk| | |] evs IH]; intros st ws len Hl Hp Hle; simpl in *.
  - done.
  - pose proof (Buffer_length_nonneg (concat (delivered evs))) as Hpos.
    rewrite <- (on_data_request this chunk st).
    apply (IH _ (write ws chunk) (len + Buffer.length chunk)).
    + by apply on_data_StreamListeners.
    + unfold on_data. rewrite Hl.
      destruct (sizeLimit this) as [limit|] eqn:Hlim; [|done].
      specialize (Hle limit eq_refl). rewrite Buffer_length_app in Hle.
      destruct (Z.gtb_spec (len + Buffer.length chunk) limit) as [Hgt|]; [lia|].
      done.
    + intros limit Hlim. specialize (Hle limit Hlim).
      rewrite Buffer_length_app in Hle. lia.
  - destruct (drain_frame evs (on_end st)) as (-> & -> & _).
    unfold on_end. rewrite Hl. unfold resolve.
    by rewrite settle_request, settle_pending.
  - by apply (IH _ ws len).
  - destruct (on_io_StreamListeners st p ws len Hl) as [ws' Hl'].
    destruct (on_io_frame st) as (Hpr & Hr & _).
    rewrite <- Hr. apply (IH _ ws' len); try done. by rewrite Hpr.
Qed.

Lemma emit_payload_outcome this evs st b :
  listeners st = PayloadListeners b →
  promise st = Pending →
  (∀ limit, sizeLimit this = Some limit →
            Buffer.length (b ++ concat (delivered evs)) ≤ limit) →
  promise (emit this evs st) = (if ends evs then Fulfilled else Pending).
Proof.
  revert st b.
  induction evs as [|[chunk| | |] evs IH]; intros st b Hl Hp Hle; simpl in *.
  - done.
  - pose proof (Buffer_length_nonneg (concat (delivered evs))) as Hpos.
    apply (IH _ (b ++ chunk)).
    + by apply on_data_PayloadListeners.
    + unfold on_data. rewrite Hl. unfold Buffer.concat2.
      destruct (sizeLimit this) as [limit|] eqn:Hlim; [|done].
      specialize (Hle limit eq_refl). rewrite !Buffer_length_app in Hle.
      destruct (Z.gtb_spec (Buffer.length (b ++ chunk)) limit) as [Hgt|];
        [|done].
      rewrite Buffer_length_app in Hgt. lia.
    + intros limit Hlim. rewrite <- app_assoc. by apply Hle.
  - destruct (drain_frame evs (on_end st)) as (-> & _).
    unfold on_end. rewrite Hl. unfold resolve. by rewrite settle_pending.
  - by apply (IH _ b).
  - rewrite on_io_not_stream by by rewrite Hl. by apply (IH _ b).
Qed.

(** X5. In stream mode, when the request passes both checks, a path is
    drawn, the stream comes to its end and the chunks add up to no more
    than the limit (or no limit is set), the ingestion resolves: the path,
    which named no file before the call, is attached to the request and
    the write stream is ended. The promise is resolved without waiting for
    the write stream; once the event loop has carried out what the stream
    waits for, the file holds the chunks in order. *)
Theorem stream_ingestion_success this req fs rnd evs filePath rnd' :
  location this = STREAM →
  checkContentType this req = Normal () →
  checkContentLength this req = None →
  getNewFilePath fs rnd = Some (filePath, rnd') →
  ends evs = true →
  (∀ limit, sizeLimit this = Some limit →
            Buffer.length (concat (delivered evs)) ≤ limit) →
  ∃ st,
    ingest this req fs rnd evs = Some st
    ∧ promise st = Fulfilled
    ∧ request st = setPayloadStreamPath filePath req
    ∧ existsSync fs filePath = false
    ∧ writeStream_ended (listeners st) = true
    ∧ (files st = fs ∨ ∃ content, files st = <[filePath := content]> fs)
    ∧ files (flush st) = <[filePath := concat (delivered evs)]> fs
    ∧ random st = rnd'.
Proof.
  intros Hloc Hct Hcl Hpath Hends Hle.
  unfold ingest, handleRequest, registerListeners.
  rewrite Hct, Hcl, Hloc. simpl. rewrite Hpath. simpl.
  eexists. split; [reflexivity|].
  set (st0 := mkState _ _ _ _ _).
  destruct (emit_stream_outcome this evs st0 filePath _ 0 eq_refl eq_refl)
    as [Hp Hr].
  { intros limit Hlim. specialize (Hle limit Hlim). lia. }
  rewrite Hends in Hp, Hr.
  pose proof (ingest_stream_inv this req fs rnd evs filePath rnd' Hpath) as Hinv.
  fold st0 in Hinv.
  destruct (stream_inv_flush _ _ _ _ _ Hinv) as [Hflush Hnow].
  destruct Hinv as (ws & len & Hl & _ & He & _).
  rewrite emit_random, Hl. simpl. rewrite He, Hends.
  split_and!; try done.
  by apply (getNewFilePath_absent fs rnd filePath rnd').
Qed.



(** *** A fulfilled promise *)

Lemma emit_payload_fulfilled this evs st b :
  listeners st = PayloadListeners b →
  promise st = Pending →
  promise (emit this evs st) = Fulfilled →
  (∀ limit, sizeLimit this = Some limit → Buffer.length b ≤ limit →
            Buffer.length (b ++ concat (delivered evs)) ≤ limit)
  ∧ request (emit this evs st)
    = setPayload (b ++ concat (delivered evs)) (request st).
Proof.
  revert st b.
  induction evs as [|[chunk| | |] evs IH]; intros st b Hl Hp Hful; simpl in *.
  - congruence.
  - assert (listeners (on_data this chunk st) = PayloadListeners (b ++ chunk))
      as Hl' by by apply on_data_PayloadListeners.
    assert (promise (on_data this chunk st) = Pending
            ∧ ∀ limit, sizeLimit this = Some limit →
                       Buffer.length (b ++ chunk) ≤ limit) as [Hp' Hle'].
    { unfold on_data in *. rewrite Hl in *. unfold Buffer.concat2 in *.
      destruct (sizeLimit this) as [limit|] eqn:Hlim; [|done].
      destruct (Z.gtb_spec (Buffer.length (b ++ chunk)) limit) as [Hgt|Hok].
      - rewrite emit_settled in Hful.
        + unfold reject in Hful. rewrite settle_pending in Hful; done.
        + unfold reject. rewrite settle_pending; done.
      - split; [done|]. by intros ? [= <-]. }
    destruct (IH _ _ Hl' Hp' Hful) as [H1 H2].
    rewrite <- !app_assoc in *. rewrite on_data_request in H2.
    split; [|done]. intros limit Hlim _. apply H1; [done|]. by apply Hle'.
  - rewrite app_nil_r. split; [done|].
    destruct (drain_frame evs (on_end st)) as (_ & -> & _).
    unfold on_end. rewrite Hl. unfold resolve. by rewrite settle_request.
  - by apply IH.
  - rewrite on_io_not_stream in * by by rewrite Hl. by apply IH.
Qed.

Lemma emit_stream_fulfilled this evs st p ws len :
  listeners st = StreamListeners p ws len →
  promise st = Pending →
  promise (emit this evs st) = Fulfilled →
  (∀ limit, sizeLimit this = Some limit → len ≤ limit →
            len + Buffer.length (concat (delivered evs)) ≤ limit)
  ∧ request (emit this evs st) = setPayloadStreamPath p (request st)
  ∧ ends evs = true.
Proof.
  revert st ws len.
  induction evs as [|[chunk| | |] evs IH]; intros st ws len Hl Hp Hful;
    simpl in *.
  - congruence.
  - assert (listeners (on_data this chunk st)
            = StreamListeners p (write ws chunk) (len + Buffer.length chunk))
      as Hl' by by apply on_data_StreamListeners.
    assert (promise (on_data this chunk st) = Pending
            ∧ ∀ limit, sizeLimit this = Some limit →
                       len + Buffer.length chunk ≤ limit) as [Hp' Hle'].
    { unfold on_data in *. rewrite Hl in *.
      destruct (sizeLimit this) as [limit|] eqn:Hlim; [|done].
      destruct (Z.gtb_spec (len + Buffer.length chunk) limit) as [Hgt|Hok].
      - rewrite emit_settled in Hful.
        + unfold reject in Hful. rewrite settle_pending in Hful; done.
        + unfold reject. rewrite settle_pending; done.
      - split; [done|]. by intros ? [= <-]. }
    destruct (IH _ _ _ Hl' Hp' Hful) as (H1 & H2 & H3).
    rewrite on_data_request in H2. split_and!; try done.
    intros limit Hlim _. specialize (H1 limit Hlim (Hle' limit Hlim)).
    rewrite Buffer_length_app. lia.
  - destruct (drain_frame evs (on_end st)) as (_ & -> & _).
    unfold on_end. rewrite Hl. unfold resolve.
    rewrite settle_request. simpl. split_and!; try done.
    intros limit Hlim Hle. unfold Buffer.length. simpl. lia.
  - by apply (IH _ ws len).
  - destruct (on_io_StreamListeners st p ws len Hl) as [ws' Hl'].
    destruct (on_io_frame st) as (Hpr & Hr & _).
    rewrite <- Hr. apply (IH _ ws' len); try done. by rewrite Hpr.
Qed.

(** X7. A fulfilled ingestion is a sound one: the request passed both
    checks, the stream came to its end, the chunks handed over add up to
    no more than the limit (when one is set, a byte count), and what is
    attached is all of them: in buffer mode their concatenation, in stream
    mode the path of the file the ended write stream writes them to, which
    holds them once the event loop has carried out what the stream waits
    for. *)
Theorem fulfilled_ingestion_sound this req fs rnd evs st :
  ingest this req fs rnd evs = Some st →
  promise st = Fulfilled →
  checkContentType this req = Normal ()
  ∧ checkContentLength this req = None
  ∧ (∀ limit, sizeLimit this = Some limit → 0 ≤ limit →
              Buffer.length (concat (delivered evs)) ≤ limit)
  ∧ match location this with
    | PAYLOAD => request st = setPayload (concat (delivered evs)) req
    | STREAM =>
        ∃ filePath,
          request st = setPayloadStreamPath filePath req
          ∧ writeStream_ended (listeners st) = true
          ∧ files (flush st) !! filePath = Some (concat (delivered evs))
    end.
Proof.
  unfold ingest.
  destruct (handleRequest this req fs rnd) as [st0|] eqn:Hst0; [|done].
  simpl. intros [= <-] Hful.
  assert (promise st0 = Pending) as Hp.
  { destruct (handleRequest_cases this req fs rnd st0 Hst0)
      as [[r ->]|[[_ ->]|(p & rnd' & _ & _ & ->)]]; try done.
    by rewrite emit_settled in Hful. }
  destruct (handleRequest_pending this req fs rnd st0 Hst0 Hp) as (Hct & Hcl & _).
  split; [done|]. split; [done|].
  destruct (handleRequest_cases this req fs rnd st0 Hst0)
    as [[r ->]|[[Hloc ->]|(p & rnd' & Hloc & Hpath & ->)]]; [done| |].
  - set (st1 := mkState _ _ _ _ _) in *.
    destruct (emit_payload_fulfilled this evs st1 [] eq_refl eq_refl Hful)
      as [H1 H2].
    rewrite Hloc. split; [|done].
    intros limit Hlim Hpos. by apply (H1 limit Hlim).
  - set (st1 := mkState _ _ _ _ _) in *.
    destruct (emit_stream_fulfilled this evs st1 p _ 0 eq_refl eq_refl Hful)
      as (H1 & H2 & H3).
    pose proof (ingest_stream_inv this req fs rnd evs p rnd' Hpath) as Hinv.
    fold st1 in Hinv.
    destruct (stream_inv_flush _ _ _ _ _ Hinv) as [Hflush _].
    destruct Hinv as (ws & len & Hl & _ & He & _).
    rewrite Hloc. split.
    + intros limit Hlim Hpos. specialize (H1 limit Hlim Hpos). lia.
    + exists p. rewrite Hl. simpl. rewrite He, H3, Hflush, lookup_insert_eq.
      by split_and!.
Qed.

(** *** Without the end of the stream *)

Lemma write_ended (ws : WriteStream) chunk : ws_ended (write ws chunk) = ws_ended ws.
Proof. unfold write. by destruct (ws_ended ws) eqn:He. Qed.

Lemma on_data_no_end this chunk st :
  (promise st ≠ Fulfilled → promise (on_data this chunk st) ≠ Fulfilled)
  ∧ writeStream_ended (listeners (on_data this chunk st))
    = writeStream_ended (listeners st).
Proof.
  split.
  - intros Hn. destruct (promise st) eqn:Hp; [|done|].
    + unfold on_data.
      destruct (listeners st) as [|payload|filePath ws len]; [by rewrite Hp| |];
        destruct (sizeLimit this) as [limit|]; simpl; rewrite ?Hp; try done;
        match goal with |- context [if ?c then _ else _] => destruct c end;
        simpl; rewrite ?Hp; try done;
        unfold reject; by rewrite settle_pending.
    + rewrite on_data_settled; by rewrite Hp.
  - destruct (listeners st) as [|b|p ws len] eqn:Hl.
    + by rewrite on_data_NoListeners, Hl.
    + by rewrite (on_data_PayloadListeners this chunk st b).
    + rewrite (on_data_StreamListeners this chunk st p ws len) by done.
      apply write_ended.
Qed.

Lemma emit_no_end this evs st :
  ends evs = false →
  request (emit this evs st) = request st
  ∧ (promise st ≠ Fulfilled → promise (emit this evs st) ≠ Fulfilled)
  ∧ writeStream_ended (listeners (emit this evs st))
    = writeStream_ended (listeners st).
Proof.
  revert st. induction evs as [|[chunk| | |] evs IH]; intros st Hends;
    simpl in *; try done.
  - destruct (IH (on_data this chunk st) Hends) as (-> & Hp & ->).
    destruct (on_data_no_end this chunk st) as [Hp' ->].
    rewrite on_data_request. split_and!; try done. intros ?. by apply Hp, Hp'.
  - by apply IH.
  - destruct (IH (on_io st) Hends) as (-> & Hp & ->).
    destruct (on_io_frame st) as (Hpr & -> & _ & _ & _ & ->).
    split_and!; try done. intros ?. apply Hp. by rewrite Hpr.
Qed.

(** X8. As long as the stream has not come to its end, and so when it
    breaks off with an error, whatever chunks, errors and completions of
    writes there were: nothing is attached to the request, the write
    stream is not ended and the promise is not fulfilled; when the request
    passed both checks and the chunks are within the limit, the promise is
    still pending. *)
Theorem transport_error_not_handled this req fs rnd evs st :
  ends evs = false →
  ingest this req fs rnd evs = Some st →
  request st = req
  ∧ promise st ≠ Fulfilled
  ∧ writeStream_ended (listeners st) = false
  ∧ ((∀ limit, sizeLimit this = Some limit →
               Buffer.length (concat (delivered evs)) ≤ limit) →
     checkContentType this req = Normal () →
     checkContentLength this req = None →
     promise st = Pending).
Proof.
  intros Hends. unfold ingest.
  destruct (handleRequest this req fs rnd) as [st0|] eqn:Hst0; [|done].
  simpl. intros [= <-].
  destruct (emit_no_end this evs st0 Hends) as (-> & Hp & ->).
  destruct (handleRequest_cases this req fs rnd st0 Hst0)
    as [[r ->]|[[Hloc ->]|(p & rnd' & Hloc & Hpath & ->)]].
  - split_and!; try done.
    + by apply Hp.
    + intros _ Hct Hcl. unfold handleRequest in Hst0. rewrite Hct, Hcl in Hst0.
      unfold registerListeners in Hst0. simpl in Hst0.
      destruct (location this); [by injection Hst0|].
      destruct (getNewFilePath fs rnd) as [[? ?]|]; by simplify_eq.
  - split_and!; try done.
    + by apply Hp.
    + intros Hle _ _.
      rewrite (emit_payload_outcome this evs _ []); try done.
      by rewrite Hends.
  - split_and!; try done.
    + by apply Hp.
    + intros Hle _ _.
      destruct (emit_stream_outcome this evs
                  (mkState Pending req fs rnd'
                     (StreamListeners p (createWriteStream p) 0))
                  p (createWriteStream p) 0 eq_refl eq_refl) as [-> _].
      * intros limit Hlim. specialize (Hle limit Hlim). lia.
      * by rewrite Hends.
Qed.

(** *** Two ingestions in stream mode *)

Lemma drain_no_io evs st : io ∉ evs → files (drain evs st) = files st.
Proof.
  revert st. induction evs as [|ev evs IH]; intros st Hno; simpl; [done|].
  apply not_elem_of_cons in Hno as [Hev Hno].
  destruct ev; try done; by apply IH.
Qed.

Lemma emit_no_io this evs st : io ∉ evs → files (emit this evs st) = files st.
Proof.
  revert st. induction evs as [|ev evs IH]; intros st Hno; simpl; [done|].
  apply not_elem_of_cons in Hno as [Hev Hno].
  destruct ev as [chunk| | |]; try done.
  - rewrite IH by done. apply on_data_files.
  - rewrite drain_no_io by done. by destruct (on_end_frame st) as (-> & _).
  - by apply IH.
Qed.

(** X9. The path of an ingestion in stream mode is safe from later calls
    only once its file is on disk. The call itself leaves the file system
    as it was. As long as the event loop has completed nothing for the
    write stream, a second call that draws the same identifier takes the
    same path. Once the file exists, a later call never takes its path. *)
Theorem successive_stream_paths
    this1 this2 (req1 req2 : HRequest JSValue) fs rnd1 rnd2 st1 p1 ws1 len1 :
  handleRequest this1 req1 fs rnd1 = Some st1 →
  listeners st1 = StreamListeners p1 ws1 len1 →
  files st1 = fs
  ∧ existsSync fs p1 = false
  ∧ (∀ evs, io ∉ evs →
       location this2 = STREAM →
       checkContentType this2 req2 = Normal () →
       checkContentLength this2 req2 = None →
       ∃ st2 rnd',
         handleRequest this2 req2 (files (emit this1 evs st1)) rnd1 = Some st2
         ∧ listeners st2 = StreamListeners p1 (createWriteStream p1) 0
         ∧ random st2 = rnd')
  ∧ (∀ evs st2 p2 ws2 len2,
       existsSync (files (emit this1 evs st1)) p1 = true →
       handleRequest this2 req2 (files (emit this1 evs st1)) rnd2 = Some st2 →
       listeners st2 = StreamListeners p2 ws2 len2 →
       p1 ≠ p2).
Proof.
  intros Hst1 Hl1.
  destruct (handleRequest_cases this1 req1 fs rnd1 st1 Hst1)
    as [[r ->]|[[Hloc ->]|(p & rnd' & Hloc & Hpath & ->)]]; try done.
  simpl in Hl1. injection Hl1 as <- <- <-. simpl.
  pose proof (getNewFilePath_absent fs rnd1 p rnd' Hpath) as Hfresh.
  split_and!; try done.
  - intros evs Hno Hloc2 Hct Hcl. rewrite emit_no_io by done. simpl.
    unfold handleRequest, registerListeners. rewrite Hct, Hcl, Hloc2. simpl.
    rewrite Hpath. by eexists _, rnd'.
  - intros evs st2 p2 ws2 len2 Hex Hst2 Hl2.
    destruct (handleRequest_cases this2 req2 _ rnd2 st2 Hst2)
      as [[r ->]|[[Hloc2 ->]|(q & rnd2' & Hloc2 & Hpath2 & ->)]]; try done.
    simpl in Hl2. injection Hl2 as <- <- <-.
    pose proof (getNewFilePath_absent _ _ _ _ Hpath2) as Hfresh2.
    intros <-. congruence.
Qed.

(** *** The drawn identifier and the end of the loop *)

Lemma hexDigit_inj (n m : N) :
  (n < 16)%N → (m < 16)%N → Buffer.hexDigit n = Buffer.hexDigit m → n = m.
Proof.
  intros Hn Hm H. apply (f_equal N_of_ascii) in H. unfold Buffer.hexDigit in H.
  destruct (N.ltb_spec n 10), (N.ltb_spec m 10);
    rewrite !N_ascii_embedding in H by lia; lia.
Qed.

Lemma hex_pair_inj (x y : byte) :
  Buffer.hexDigit (Byte.to_N x / 16) = Buffer.hexDigit (Byte.to_N y / 16) →
  Buffer.hexDigit (Byte.to_N x mod 16) = Buffer.hexDigit (Byte.to_N y mod 16) →
  x = y.
Proof.
  intros Hhi Hlo.
  pose proof (Byte.to_N_bounded x) as Hx. pose proof (Byte.to_N_bounded y) as Hy.
  apply hexDigit_inj in Hhi;
    [|apply N.Div0.div_lt_upper_bound; lia|apply N.Div0.div_lt_upper_bound; lia].
  apply hexDigit_inj in Hlo; [|by apply N.mod_lt|by apply N.mod_lt].
  assert (Byte.to_N x = Byte.to_N y) as Heq.
  { rewrite (N.div_mod (Byte.to_N x) 16), (N.div_mod (Byte.to_N y) 16) by done.
    by rewrite Hhi, Hlo. }
  pose proof (Byte.of_to_N x) as H1. rewrite Heq, Byte.of_to_N in H1.
  by injection H1.
Qed.

(** X10. The hexadecimal encoding loses nothing: two byte strings with the
    same encoding are equal, so two different draws never name the same
    path, and [getNewFilePath] returns the same path for two draws only
    when they are equal. *)
Theorem toString_hex_inj (a b : Buffer.t) :
  ("/tmp/" +:+ Buffer.toString_hex a = "/tmp/" +:+ Buffer.toString_hex b ↔ a = b)
  ∧ (∀ fs p rnd1 rnd2,
       getNewFilePath fs [a] = Some (p, rnd1) →
       getNewFilePath fs [b] = Some (p, rnd2) →
       a = b).
Proof.
  assert ("/tmp/" +:+ Buffer.toString_hex a = "/tmp/" +:+ Buffer.toString_hex b
          → a = b) as Hinj.
  { intros H. simpl in H. injection H as H.
    revert b H. induction a as [|x a IH]; intros [|y b] H; simpl in H; try done.
    injection H as Hhi Hlo H.
    by rewrite (hex_pair_inj x y Hhi Hlo), (IH b H). }
  split; [split; [done | by intros ->]|].
  intros fs p rnd1 rnd2. cbn [getNewFilePath]. intros H1 H2.
  destruct (existsSync fs ("/tmp/" +:+ Buffer.toString_hex a)); [discriminate|].
  destruct (existsSync fs ("/tmp/" +:+ Buffer.toString_hex b)); [discriminate|].
  injection H1 as <- _. apply Hinj. symmetry. congruence.
Qed.

Lemma getNewFilePath_None fs rnd :
  getNewFilePath fs rnd = None
  ↔ Forall (λ b, existsSync fs ("/tmp/" +:+ Buffer.toString_hex b) = true) rnd.
Proof.
  induction rnd as [|bytes rnd IH]; simpl.
  - split; [by constructor | done].
  - destruct (existsSync fs ("/tmp/" +:+ Buffer.toString_hex bytes)) eqn:Hex.
    + rewrite IH. split; [by constructor | by intros [_ ?]%Forall_cons].
    + split; [done|]. intros [Hb _]%Forall_cons. simpl in Hb. congruence.
Qed.

(** X11. The call comes back in every case but one: in stream mode, for a
    request that passes both checks, when every identifier drawn names an
    existing file, the loop of [getNewFilePath] goes on. In buffer mode,
    after a rejection by a check, or with one draw that names no file,
    the call returns. *)
Theorem handleRequest_returns this req fs rnd :
  handleRequest this req fs rnd = None
  ↔ location this = STREAM
    ∧ checkContentType this req = Normal ()
    ∧ checkContentLength this req = None
    ∧ Forall (λ b, existsSync fs ("/tmp/" +:+ Buffer.toString_hex b) = true)
        rnd.
Proof.
  rewrite <- getNewFilePath_None.
  unfold handleRequest, registerListeners. simpl.
  destruct (checkContentType this req) as [[]|e];
    [destruct (checkContentLength this req) as [e|]|].
  - split; [done | by intros (_ & _ & ? & _)].
  - destruct (location this).
    + split; [done | by intros (? & _)].
    + destruct (getNewFilePath fs rnd) as [[filePath rnd']|].
      * split; [done | by intros (_ & _ & _ & ?)].
      * done.
  - split; [done | by intros (_ & ? & _)].
Qed.

(** X12. The check of the declared type lets a request pass exactly when
    no allow-list is set or the content-type header is present and equal
    to a member of the list; what it throws otherwise is the error of
    status 415 that names the list. *)
Theorem checkContentType_passes this req :
  (checkContentType this req = Normal ()
   ↔ allowedExtensions this = None
     ∨ ∃ exts mime, allowedExtensions this = Some exts
                    ∧ headers req !! "content-type" = Some mime
                    ∧ mime ∈ exts)
  ∧ (∀ e, checkContentType this req = Throw e →
          ∃ exts, allowedExtensions this = Some exts
                  ∧ e = HErr (fileIncorrectType exts)
                  ∧ code (fileIncorrectType exts) = 415).
Proof.
  unfold checkContentType, getHeaders, throwFileIncorrectType.
  destruct (allowedExtensions this) as [exts|]; [|split; [naive_solver|done]].
  destruct (headers req !! "content-type") as [mime|].
  - destruct (Z.eqb_spec (indexOf exts mime) (-1)) as [Habs|Hin].
    + apply indexOf_absent in Habs. split.
      * split; [done|]. intros [?|(exts' & mime' & [= <-] & [= <-] & ?)]; done.
      * intros e [= <-]. by exists exts.
    + split; [|done]. split; [|done]. intros _. right. exists exts, mime.
      split_and!; try done.
      destruct (decide (mime ∈ exts)) as [|Hn]; [done|].
      by apply indexOf_absent in Hn.
  - split.
    + split; [done|]. intros [?|(exts' & mime' & _ & ? & _)]; done.
    + intros e [= <-]. by exists exts.
Qed.

(** *** Decimal declared lengths *)

Lemma digitValue_pretty_N_char (d : N) :
  (d < 10)%N → digitValue (pretty_N_char d) = Some (Z.of_N d).
Proof.
  intros Hd.
  assert (d = 0 ∨ d = 1 ∨ d = 2 ∨ d = 3 ∨ d = 4 ∨ d = 5 ∨ d = 6 ∨ d = 7
          ∨ d = 8 ∨ d = 9)%N as Hcases by lia.
  repeat (destruct Hcases as [->|Hcases]; [reflexivity|]). by subst.
Qed.

Lemma parseDigits_digit (d : N) (s : string) (acc : option Z) :
  (d < 10)%N →
  parseDigits 10 (String (pretty_N_char d) s) acc
  = parseDigits 10 s (Some (10 * default 0 acc + Z.of_N d)).
Proof.
  intros Hd. cbn [parseDigits]. rewrite digitValue_pretty_N_char by done.
  by destruct (Z.ltb_spec (Z.of_N d) 10) as [_|?]; [|lia].
Qed.

Lemma parseDigits_pretty_N_go (x : N) (s : string) :
  (0 < x)%N →
  parseDigits 10 (pretty_N_go x s) None = parseDigits 10 s (Some (Z.of_N x)).
Proof.
  revert s. induction (N.lt_wf_0 x) as [x _ IH]; intros s Hx.
  rewrite pretty_N_go_step by done.
  pose proof (N.mod_lt x 10) as Hmod.
  pose proof (N.div_mod x 10) as Hdiv.
  destruct (decide (x `div` 10 = 0)%N) as [Hz|Hnz].
  - rewrite Hz, pretty_N_go_0, parseDigits_digit by lia.
    simpl. do 2 f_equal. lia.
  - rewrite IH; [|apply N.div_lt; lia|lia].
    rewrite parseDigits_digit by lia. simpl. do 2 f_equal. lia.
Qed.

Lemma pretty_N_go_head (x : N) (s : string) :
  (0 < x)%N →
  ∃ d rest, (0 < d < 10)%N ∧ pretty_N_go x s = String (pretty_N_char d) rest.
Proof.
  revert s. induction (N.lt_wf_0 x) as [x _ IH]; intros s Hx.
  rewrite pretty_N_go_step by done.
  pose proof (N.mod_lt x 10) as Hmod.
  pose proof (N.div_mod x 10) as Hdiv.
  destruct (decide (x `div` 10 = 0)%N) as [Hz|Hnz].
  - rewrite Hz, pretty_N_go_0. exists (x `mod` 10)%N, s. split; [lia|done].
  - apply IH; [apply N.div_lt; lia|lia].
Qed.

Lemma parseInt_digit_head (d : N) (rest : string) :
  (0 < d < 10)%N →
  parseInt (String (pretty_N_char d) rest)
  = match parseDigits 10 (String (pretty_N_char d) rest) None with
    | Some mathInt => Some (toNumber (1 * mathInt))
    | None => None
    end
  ∧ parseInt (String "-" (String (pretty_N_char d) rest))
    = match parseDigits 10 (String (pretty_N_char d) rest) None with
      | Some mathInt => Some (toNumber (-1 * mathInt))
      | None => None
      end.
Proof.
  intros Hd.
  assert (d = 1 ∨ d = 2 ∨ d = 3 ∨ d = 4 ∨ d = 5 ∨ d = 6 ∨ d = 7
          ∨ d = 8 ∨ d = 9)%N as Hcases by lia.
  repeat (destruct Hcases as [->|Hcases]; [by split|]). subst. by split.
Qed.

Lemma parseInt_pretty (n : Z) : parseInt (pretty n) = Some (toNumber n).
Proof.
  destruct n as [|x|x]; [done| |].
  - change (pretty (Z.pos x)) with (pretty_N_go (N.pos x) "").
    destruct (pretty_N_go_head (N.pos x) "") as (d & rest & Hd & Heq); [lia|].
    pose proof (parseDigits_pretty_N_go (N.pos x) "") as Hdigits.
    rewrite Heq in *. rewrite (proj1 (parseInt_digit_head d rest Hd)).
    rewrite Hdigits by lia. done.
  - change (pretty (Z.neg x)) with (String "-" (pretty_N_go (N.pos x) "")).
    destruct (pretty_N_go_head (N.pos x) "") as (d & rest & Hd & Heq); [lia|].
    pose proof (parseDigits_pretty_N_go (N.pos x) "") as Hdigits.
    rewrite Heq in *. rewrite (proj2 (parseInt_digit_head d rest Hd)).
    rewrite Hdigits by lia. done.
Qed.

Lemma toNumber_safe (n : Z) : Z.abs n < 2 ^ 53 → toNumber n = n.
Proof.
  intros Hn. unfold toNumber.
  by destruct (Z.ltb_spec (Z.abs n) (2 ^ 53)) as [_|?]; [|lia].
Qed.

(** X13. A content-length header that is the decimal numeral of a byte
    count [n] below 2^53 is read as [n]: with a limit set, the check of
    the declared length rejects, with status 413, exactly when [n] is
    above the limit. *)
Theorem declared_decimal_length this req limit (n : Z) :
  sizeLimit this = Some limit →
  headers req !! "content-length" = Some (pretty n) →
  0 ≤ n < 2 ^ 53 →
  parseInt (pretty n) = Some n
  ∧ checkContentLength this req
    = (if limit <? n then Some (fileTooLarge limit) else None)
  ∧ code (fileTooLarge limit) = 413.
Proof.
  intros Hlim Hh Hn.
  assert (parseInt (pretty n) = Some n) as Hp.
  { rewrite parseInt_pretty, toNumber_safe; [done|lia]. }
  split; [done|]. split; [|done].
  unfold checkContentLength, getHeaders. rewrite Hlim, Hh, Hp. simpl.
  rewrite Z.gtb_ltb. by destruct (limit <? n).
Qed.

(** *** A request as the constructor builds it *)

(** X16. On a request as the constructor builds it, a fulfilled ingestion
    has attached exactly one payload, the one of its mode: the bytes in
    buffer mode, the path in stream mode, where the file at that path
    exists once the event loop has carried out what the write stream
    waits for. The decoded value is still absent, whatever the bytes
    are. *)
Theorem fresh_request_one_payload
    this (req_headers : gmap string string) (req_url : option string)
    fs rnd evs st :
  ingest this (newHRequest req_headers req_url) fs rnd evs = Some st →
  promise st = Fulfilled →
  getBody (request st) = None (A:=JSValue)
  ∧ match location this with
    | PAYLOAD =>
        getPayload (request st) = Some (concat (delivered evs))
        ∧ getPayloadStreamPath (request st) = None
    | STREAM =>
        getPayload (request st) = None
        ∧ ∃ filePath, getPayloadStreamPath (request st) = Some filePath
                      ∧ existsSync (files (flush st)) filePath = true
    end.
Proof.
  unfold ingest.
  destruct (handleRequest this _ fs rnd) as [st0|] eqn:Hst0; [|done].
  simpl. intros [= <-] Hful.
  destruct (handleRequest_cases this _ fs rnd st0 Hst0)
    as [[r ->]|[[Hloc ->]|(p & rnd' & Hloc & Hpath & ->)]].
  - by rewrite emit_settled in Hful.
  - set (st1 := mkState _ _ _ _ _) in *.
    destruct (emit_payload_fulfilled this evs st1 [] eq_refl eq_refl Hful)
      as [_ H]. rewrite Hloc, H. done.
  - set (st1 := mkState _ _ _ _ _) in *.
    destruct (emit_stream_fulfilled this evs st1 p _ 0 eq_refl eq_refl Hful)
      as (_ & H & _).
    pose proof (ingest_stream_inv this (newHRequest req_headers req_url)
                  fs rnd evs p rnd' Hpath) as Hinv.
    fold st1 in Hinv.
    destruct (stream_inv_flush _ _ _ _ _ Hinv) as [Hflush _].
    rewrite Hloc, H. split; [done|]. split; [done|]. exists p.
    split; [done|]. rewrite Hflush. apply existsSync_insert.
Qed.

(** *** Decoding after the ingestion *)

Section MoreDecoding.

Variable toString_utf8 : Buffer.t → completion string.
Variable JSON_parse : string → completion JSValue.
Variable ObjectTypeDefinition : Type.
Variable checkConformity : ObjectTypeDefinition → JSValue → bool.

(** X14. [fetchPayload] changes nothing but the decoded value, and calling
    it again on its result changes nothing at all. *)
Theorem fetchPayload_idempotent (r r' : HRequest JSValue) :
  fetchPayload toString_utf8 JSON_parse r = Normal r' →
  fetchPayload toString_utf8 JSON_parse r' = Normal r'
  ∧ headers r' = headers r
  ∧ url r' = url r
  ∧ payload r' = payload r
  ∧ payloadSteamPath r' = payloadSteamPath r.
Proof.
  unfold fetchPayload.
  destruct (payload r) as [p|] eqn:Hp.
  - destruct (toString_utf8 p) as [payloadString|e1] eqn:Hs; simpl.
    + destruct (JSON_parse payloadString) as [o|e2] eqn:Ho; simpl.
      * intros [= <-]. simpl. rewrite Hp, Hs. simpl. by rewrite Ho.
      * intros [= <-]. rewrite Hp, Hs. simpl. by rewrite Ho.
    + intros [= <-]. by rewrite Hp, Hs.
  - intros [= <-]. by rewrite Hp.
Qed.

(** X15. Ingestion, decoding and validation compose: after a buffer-mode
    ingestion that passes the checks and stays within the limit, when the
    bytes received decode and parse to a value, [fetchPayload] on the
    request stores that value, [getBody] returns it, the bytes stay
    attached, and the validation returns normally exactly when the value
    conforms to the type definition. *)
Theorem ingest_decode_verify
    this req fs rnd (chunks : list Buffer.t) (payloadString : string)
    (o : JSValue) (types : ObjectTypeDefinition) :
  location this = PAYLOAD →
  checkContentType this req = Normal () →
  checkContentLength this req = None →
  (∀ limit, sizeLimit this = Some limit →
            Buffer.length (concat chunks) ≤ limit) →
  toString_utf8 (concat chunks) = Normal payloadString →
  JSON_parse payloadString = Normal o →
  ∃ st r',
    ingest this req fs rnd ((data <$> chunks) ++ [end_]) = Some st
    ∧ promise st = Fulfilled
    ∧ fetchPayload toString_utf8 JSON_parse (request st) = Normal r'
    ∧ getBody r' = Some o
    ∧ getPayload r' = Some (concat chunks)
    ∧ (verifyPayloadAgainstTypeDefinition ObjectTypeDefinition checkConformity
         types r' = Normal ()
       ↔ checkConformity types o = true).
Proof.
  intros Hloc Hct Hcl Hle Hs Ho. unfold ingest, handleRequest, registerListeners.
  rewrite Hct, Hcl, Hloc. simpl.
  set (st0 := set_listeners _ _).
  pose proof (emit_data_PayloadListeners this chunks st0 [] eq_refl) as Hl.
  pose proof (emit_data_payload_pending this chunks st0 [] eq_refl eq_refl Hle)
    as Hp.
  simpl in Hl.
  exists (emit this ((data <$> chunks) ++ [end_]) st0),
         (setPayloadObject o (setPayload (concat chunks) req)).
  rewrite emit_app_data. simpl. unfold on_end. rewrite Hl. unfold resolve.
  rewrite settle_request, settle_pending by done. simpl.
  rewrite emit_data_request. simpl.
  split; [done|]. split; [done|].
  unfold fetchPayload. simpl. rewrite Hs. simpl. rewrite Ho. simpl.
  split; [done|]. split; [done|]. split; [done|].
  unfold verifyPayloadAgainstTypeDefinition. simpl.
  by destruct (checkConformity types o).
Qed.

End MoreDecoding.

End MoreProperties.

(** ** The further properties at sample inputs *)

Section MoreWitnesses.

Import Samples.

Lemma getEndpoint_of_path_witness : getEndpoint uploadRequest = Some "upload"%string.
Proof.
  apply (getEndpoint_of_path uploadRequest "/api/v1" "upload"); reflexivity.
Defined.

Lemma ingestion_frame_witness :
  ∃ st,
    ingest stream10 emptyRequest (<["/tmp/keep" := [x01]]> ∅) [bytesA]
      [data [x00; x01]; io; io; end_; io] = Some st
    ∧ files st !! "/tmp/00010203040506ff" = Some [x00; x01]
    ∧ files st !! "/tmp/keep" = Some [x01].
Proof.
  destruct (ingest stream10 emptyRequest (<["/tmp/keep" := [x01]]> ∅) [bytesA]
              [data [x00; x01]; io; io; end_; io]) as [st|] eqn:Hst;
    [|vm_compute in Hst; discriminate].
  exists st. split; [reflexivity|].
  destruct (ingestion_frame stream10 emptyRequest (<["/tmp/keep" := [x01]]> ∅)
              [bytesA] [data [x00; x01]; io; io; end_; io] st Hst)
    as (_ & _ & _ & H2 & _).
  split.
  - vm_compute in Hst. injection Hst as <-. reflexivity.
  - etrans; [apply H2|]; reflexivity.
Defined.

Lemma stream_file_holds_delivered_witness :
  files (flush (emit stream1 [data [x00; x01]; io; io; data [x02]] stream_started))
    !! "/tmp/00010203040506ff"
  = Some [x00; x01; x02].
Proof.
  apply (stream_file_holds_delivered stream1 emptyRequest ∅ [bytesA]
           [data [x00; x01]; io; io; data [x02]]
           (emit stream1 [data [x00; x01]; io; io; data [x02]] stream_started)
           "/tmp/00010203040506ff"
           (mkWriteStream "/tmp/00010203040506ff" [OpWrite [x02]] false) 3).
  - vm_compute. reflexivity.
  - vm_compute. reflexivity.
Defined.

Lemma stream_ingestion_success_witness :
  ∃ st,
    ingest stream10 emptyRequest ∅ [bytesA]
      [data [x00; x01]; io; data [x02]; end_; io] = Some st
    ∧ promise st = Fulfilled
    ∧ request st = setPayloadStreamPath "/tmp/00010203040506ff" emptyRequest
    ∧ files (flush st) = <["/tmp/00010203040506ff" := [x00; x01; x02]]> ∅.
Proof.
  destruct (stream_ingestion_success stream10 emptyRequest ∅ [bytesA]
              [data [x00; x01]; io; data [x02]; end_; io]
              "/tmp/00010203040506ff" [])
    as (st & H1 & H2 & H3 & _ & _ & _ & H4 & _).
  - reflexivity.
  - reflexivity.
  - reflexivity.
  - reflexivity.
  - reflexivity.
  - intros limit H. injection H as <-. vm_compute. discriminate.
  - exists st. auto.
Defined.


Lemma fulfilled_ingestion_sound_witness :
  ∃ st filePath,
    ingest stream10 emptyRequest ∅ [bytesA] [data [x00]; io; data [x01]; end_]
    = Some st
    ∧ request st = setPayloadStreamPath filePath emptyRequest
    ∧ files (flush st) !! filePath = Some [x00; x01].
Proof.
  destruct (ingest stream10 emptyRequest ∅ [bytesA]
              [data [x00]; io; data [x01]; end_])
    as [st|] eqn:Hst; [|vm_compute in Hst; discriminate].
  destruct (fulfilled_ingestion_sound stream10 emptyRequest ∅ [bytesA]
              [data [x00]; io; data [x01]; end_] st Hst)
    as (_ & _ & _ & filePath & H1 & _ & H2).
  - vm_compute in Hst. injection Hst as <-. reflexivity.
  - exists st, filePath. split; [reflexivity|]. split; [exact H1 | exact H2].
Defined.

Lemma transport_error_not_handled_witness :
  ∃ st,
    ingest buffer10 emptyRequest ∅ [] [data [x00]; error; data [x01]; io]
    = Some st
    ∧ request st = emptyRequest
    ∧ promise st = Pending.
Proof.
  destruct (ingest buffer10 emptyRequest ∅ []
              [data [x00]; error; data [x01]; io])
    as [st|] eqn:Hst; [|vm_compute in Hst; discriminate].
  exists st. split; [reflexivity|].
  destruct (transport_error_not_handled buffer10 emptyRequest ∅ []
              [data [x00]; error; data [x01]; io] st eq_refl Hst)
    as (H1 & _ & _ & H2).
  split; [exact H1|]. apply H2.
  - intros limit H. injection H as <-. vm_compute. discriminate.
  - reflexivity.
  - reflexivity.
Defined.

Lemma successive_stream_paths_witness :
  (∃ st2 rnd',
      handleRequest stream10 emptyRequest
        (files (emit stream10 [data [x00]; end_] stream_started)) [bytesA]
      = Some st2
      ∧ listeners st2
        = StreamListeners "/tmp/00010203040506ff"
            (createWriteStream "/tmp/00010203040506ff") 0
      ∧ random st2 = rnd')
  ∧ ∃ st2,
      handleRequest stream10 emptyRequest
        (files (emit stream10 [io; data [x00]] stream_started)) [bytesA; bytesB]
      = Some st2
      ∧ listeners st2
        = StreamListeners "/tmp/1020304050607080"
            (createWriteStream "/tmp/1020304050607080") 0.
Proof.
  destruct (successive_stream_paths stream10 stream10 emptyRequest emptyRequest
              ∅ [bytesA] [bytesA; bytesB] stream_started
              "/tmp/00010203040506ff"
              (createWriteStream "/tmp/00010203040506ff") 0)
    as (_ & _ & Hsame & Hdiff).
  - reflexivity.
  - reflexivity.
  - split.
    + apply (Hsame [data [x00]; end_]); try reflexivity.
      intros Hin. repeat (apply elem_of_cons in Hin as [Hin|Hin];
                          [discriminate Hin|]).
      by apply elem_of_nil in Hin.
    + destruct (handleRequest stream10 emptyRequest
                  (files (emit stream10 [io; data [x00]] stream_started))
                  [bytesA; bytesB]) as [st2|] eqn:Hst2;
        [|vm_compute in Hst2; discriminate].
      exists st2. split; [reflexivity|].
      assert (("/tmp/00010203040506ff" : string) ≠ "/tmp/1020304050607080")
        as Hne.
      { apply (Hdiff [io; data [x00]] st2 "/tmp/1020304050607080"
                 (createWriteStream "/tmp/1020304050607080") 0).
        - reflexivity.
        - exact Hst2.
        - vm_compute in Hst2. injection Hst2 as <-. reflexivity. }
      vm_compute in Hst2. injection Hst2 as <-. reflexivity.
Defined.

Lemma declared_decimal_length_witness :
  checkContentLength buffer10 length100 = Some (fileTooLarge 10).
Proof.
  destruct (declared_decimal_length buffer10 length100 10 100) as (_ & H & _).
  - reflexivity.
  - reflexivity.
  - lia.
  - exact H.
Defined.

Lemma fetchPayload_idempotent_witness :
  fetchPayload toString_latin1 parse_null
    (setPayloadObject () (withPayload [x6e; x75; x6c; x6c]))
  = Normal (setPayloadObject () (withPayload [x6e; x75; x6c; x6c])).
Proof.
  destruct (fetchPayload_idempotent toString_latin1 parse_null
              (withPayload [x6e; x75; x6c; x6c])
              (setPayloadObject () (withPayload [x6e; x75; x6c; x6c])))
    as (H & _).
  - reflexivity.
  - exact H.
Defined.

Lemma ingest_decode_verify_witness :
  ∃ st r',
    ingest buffer10 emptyRequest ∅ [] ((data <$> null_chunks) ++ [end_]) = Some st
    ∧ fetchPayload toString_latin1 parse_null (request st) = Normal r'
    ∧ getBody r' = Some ()
    ∧ verifyPayloadAgainstTypeDefinition bool conforms true r' = Normal ().
Proof.
  destruct (ingest_decode_verify toString_latin1 parse_null bool conforms
              buffer10 emptyRequest ∅ [] null_chunks "null" () true)
    as (st & r' & H1 & _ & H2 & H3 & _ & H4).
  - reflexivity.
  - reflexivity.
  - reflexivity.
  - intros limit H. injection H as <-. vm_compute. discriminate.
  - reflexivity.
  - reflexivity.
  - exists st, r'. split; [exact H1|]. split; [exact H2|].
    split; [exact H3|]. apply H4. reflexivity.
Defined.

Lemma fresh_request_one_payload_witness :
  ∃ st,
    ingest stream10 uploadRequest ∅ [bytesA] [data [x00]; end_; io; io] = Some st
    ∧ getPayload (request st) = None
    ∧ ∃ filePath, getPayloadStreamPath (request st) = Some filePath
                  ∧ existsSync (files (flush st)) filePath = true.
Proof.
  destruct (ingest stream10 uploadRequest ∅ [bytesA] [data [x00]; end_; io; io])
    as [st|] eqn:Hst; [|vm_compute in Hst; discriminate].
  exists st. split; [reflexivity|].
  destruct (fresh_request_one_payload stream10 ∅ (Some "/api/v1/upload"%string)
              ∅ [bytesA] [data [x00]; end_; io; io] st Hst) as (_ & H).
  - vm_compute in Hst. injection Hst as <-. reflexivity.
  - exact H.
Defined.

End MoreWitnesses.
